(** * Range-mode queries with a frequency threshold: [solution.cpp]

    A shallow embedding of the two classes of [solution.cpp], [Solution] and
    [SolutionOptimized], and the properties of [numOfSubarrays].

    Modelling choices.
    - [int] is a 32-bit signed integer, modelled by [Z]; the two places where
      the code does arithmetic on an [int] ([i++] on the loop index, [++] on a
      count) go through [int_incr], which has no defined result at [INT_MAX].
    - [vector<int>& nums] and [vector<vector<int>>& queries] are passed by
      non-const reference: they live in a [store] that every operation
      receives and hands back, so that "the call does not write to them" is a
      statement about the code and not about the type of the model.
    - [operator[]] of [vector] out of range and signed overflow are undefined
      behaviour: outcome [Undefined].
    - [unordered_map<int,int>] is a table of (key, count) entries with unique
      keys, kept in first-insertion order.  The order in which a range-for
      visits it is not fixed by the language: it is a parameter
      [iteration_order] of the model, constrained only to enumerate the very
      same entries. *)

From stdpp Require Import base list.
From Stdlib Require Import ZArith Lia.

Local Open Scope Z_scope.

(** ** Outcomes and the store-passing monad *)

Definition INT_MAX : Z := 2147483647.

Inductive outcome (A : Type) : Type :=
  | Ret (a : A)      (* the computation completes with a value *)
  | Undefined        (* undefined behaviour was reached *)
  | Diverge.         (* the loop budget was exhausted *)

Arguments Ret {A} a.
Arguments Undefined {A}.
Arguments Diverge {A}.

(** The two vectors the caller passes by reference. *)
Record store : Type := Store {
  nums : list Z;
  queries : list (list Z)
}.

Definition M (A : Type) : Type := store -> outcome (A * store).

Definition ret {A : Type} (a : A) : M A := fun s => Ret (a, s).

Definition bind {A B : Type} (c : M A) (k : A -> M B) : M B :=
  fun s =>
    match c s with
    | Ret (a, s') => k a s'
    | Undefined => Undefined
    | Diverge => Diverge
    end.

Definition undefined {A : Type} : M A := fun _ => Undefined.
Definition diverge {A : Type} : M A := fun _ => Diverge.

Notation "x <- c ;; k" := (bind c (fun x => k))
  (at level 100, c at next level, right associativity).

(** The value of an outcome, without the final store. *)
Definition value {A : Type} (o : outcome (A * store)) : outcome A :=
  match o with
  | Ret (a, _) => Ret a
  | Undefined => Undefined
  | Diverge => Diverge
  end.

(** ** The operations of the C++ objects the code uses *)

(** [x++] on an [int]: signed overflow is undefined. *)
Definition int_incr (x : Z) : M Z :=
  if x =? INT_MAX then undefined else ret (x + 1).

(** [nums[i]] with [int i]: the index is converted to [size_t], so a negative
    one is out of range like one past the end. *)
Definition nums_at (i : Z) : M Z :=
  fun s =>
    if i <? 0 then Undefined
    else match nums s !! Z.to_nat i with
         | Some x => Ret (x, s)
         | None => Undefined
         end.

(** [queries.size()], read once by the range-for. *)
Definition queries_size : M nat :=
  fun s => Ret (length (queries s), s).

(** [query[k]] where [query] is the [j]-th element of [queries]. *)
Definition query_at (j k : nat) : M Z :=
  fun s =>
    match queries s !! j with
    | Some query =>
        match query !! k with
        | Some x => Ret (x, s)
        | None => Undefined
        end
    | None => Undefined
    end.

(** [unordered_map<int,int>]: entries with unique keys, first inserted first. *)
Definition table : Type := list (Z * Z).

(** [freq[k]++]: [operator[]] finds the entry of [k], creating it with count 0
    when there is none, and the count is incremented. *)
Fixpoint incr (k : Z) (freq : table) : M table :=
  match freq with
  | [] => c <- int_incr 0 ;; ret [(k, c)]
  | (k', c) :: rest =>
      if k' =? k then c' <- int_incr c ;; ret ((k', c') :: rest)
      else rest' <- incr k rest ;; ret ((k', c) :: rest')
  end.

(** Two orders a hash table may enumerate its entries in. *)
Definition insertion_order (freq : table) : list (Z * Z) := freq.
Definition reverse_order (freq : table) : list (Z * Z) := rev freq.

(** ** class Solution *)

Module Solution.
Section WithOrder.

Variable iteration_order : table -> list (Z * Z).

(** [for (int i = left; i <= right; i++) freq[nums[i]]++;] with [i] the
    current index.  [fuel] bounds the number of loop tests. *)
Fixpoint count_loop (fuel : nat) (right i : Z) (freq : table) : M table :=
  match fuel with
  | O => diverge
  | S fuel' =>
      if i <=? right then
        x <- nums_at i ;;
        freq' <- incr x freq ;;
        i' <- int_incr i ;;
        count_loop fuel' right i' freq'
      else ret freq
  end.

(** The body of [for (auto& pair : freq)], on the state (answer, maxFreq). *)
Definition scan_step (threshold : Z) (st : Z * Z) (pair : Z * Z) : Z * Z :=
  let '(answer, maxFreq) := st in
  if pair.2 >=? threshold then
    if (answer =? -1) || (pair.2 >? maxFreq)
       || ((pair.2 =? maxFreq) && (pair.1 <? answer))
    then (pair.1, pair.2)
    else (answer, maxFreq)
  else (answer, maxFreq).

(** [int answer = -1; int maxFreq = 0;] then the scan; the result is
    [answer]. *)
Definition scan (threshold : Z) (entries : list (Z * Z)) : Z :=
  (fold_left (scan_step threshold) entries (-1, 0)).1.

(** The body of the loop over the queries, for the [j]-th query: the value
    pushed on [result]. *)
Definition query_body (j : nat) : M Z :=
  left <- query_at j 0%nat ;;
  right <- query_at j 1%nat ;;
  threshold <- query_at j 2%nat ;;
  freq <- count_loop (S (Z.to_nat (right - left + 1))) right left [] ;;
  ret (scan threshold (iteration_order freq)).

(** [for (auto& query : queries) { ...; result.push_back(answer); }] with
    [n] queries left, the next one at index [j]. *)
Fixpoint query_loop (n : nat) (j : nat) (result : list Z) : M (list Z) :=
  match n with
  | O => ret result
  | S n' =>
      answer <- query_body j ;;
      query_loop n' (S j) (result ++ [answer])
  end.

Definition numOfSubarrays : M (list Z) :=
  n <- queries_size ;;
  query_loop n 0%nat [].

End WithOrder.
End Solution.

(** ** class SolutionOptimized *)

Module SolutionOptimized.
Section WithOrder.

Variable iteration_order : table -> list (Z * Z).

Fixpoint count_loop (fuel : nat) (right i : Z) (freq : table) : M table :=
  match fuel with
  | O => diverge
  | S fuel' =>
      if i <=? right then
        x <- nums_at i ;;
        freq' <- incr x freq ;;
        i' <- int_incr i ;;
        count_loop fuel' right i' freq'
      else ret freq
  end.

(** The body of [for (auto& [val, count] : freq)]: the entry is taken apart
    by a structured binding. *)
Definition scan_step (threshold : Z) (st : Z * Z) (entry : Z * Z) : Z * Z :=
  let '(answer, maxFreq) := st in
  let '(val, count) := entry in
  if count >=? threshold then
    if (answer =? -1) || (count >? maxFreq)
       || ((count =? maxFreq) && (val <? answer))
    then (val, count)
    else (answer, maxFreq)
  else (answer, maxFreq).

Definition scan (threshold : Z) (entries : list (Z * Z)) : Z :=
  (fold_left (scan_step threshold) entries (-1, 0)).1.

Definition query_body (j : nat) : M Z :=
  left <- query_at j 0%nat ;;
  right <- query_at j 1%nat ;;
  threshold <- query_at j 2%nat ;;
  freq <- count_loop (S (Z.to_nat (right - left + 1))) right left [] ;;
  ret (scan threshold (iteration_order freq)).

Fixpoint query_loop (n : nat) (j : nat) (result : list Z) : M (list Z) :=
  match n with
  | O => ret result
  | S n' =>
      answer <- query_body j ;;
      query_loop n' (S j) (result ++ [answer])
  end.

Definition numOfSubarrays : M (list Z) :=
  n <- queries_size ;;
  query_loop n 0%nat [].

End WithOrder.
End SolutionOptimized.

(** ** The notions the properties are stated with *)

(** An iteration order enumerates the entries of the table, each once. *)
Definition enumerates (iteration_order : table -> list (Z * Z)) : Prop :=
  forall freq : table, iteration_order freq ≡ₚ freq.

(** Number of occurrences of [v] in [l]. *)
Fixpoint occ (v : Z) (l : list Z) : Z :=
  match l with
  | [] => 0
  | x :: l' => (if x =? v then 1 else 0) + occ v l'
  end.

(** [array[left..right]], bounds included. *)
Definition slice (array : list Z) (left right : Z) : list Z :=
  take (Z.to_nat (right - left + 1)) (drop (Z.to_nat left) array).

(** The precondition of a query. *)
Definition in_range (array : list Z) (left right : Z) : Prop :=
  0 <= left /\ left <= right /\ right < Z.of_nat (length array).

Definition valid_query (array : list Z) (left right threshold : Z) : Prop :=
  in_range array left right /\ 1 <= threshold.

(** [a] occurs at least [threshold] times in [range], and no other value has
    a strictly higher count meeting the threshold, or an equal count and a
    smaller value. *)
Definition selected (threshold : Z) (range : list Z) (a : Z) : Prop :=
  threshold <= occ a range /\
  forall v : Z, v <> a ->
    ~ (occ a range < occ v range /\ threshold <= occ v range) /\
    ~ (occ v range = occ a range /\ v < a).

(** [v] is one of the values tied at the maximum count, and that count
    reaches [threshold]. *)
Definition at_max_count (threshold : Z) (range : list Z) (v : Z) : Prop :=
  threshold <= occ v range /\ forall w : Z, occ w range <= occ v range.

(** The count recorded for [v] in a table, 0 when [v] is not a key. *)
Fixpoint cnt (v : Z) (freq : table) : Z :=
  match freq with
  | [] => 0
  | (k, c) :: rest => if k =? v then c else cnt v rest
  end.

(** What the table holds once the elements [seen] have been counted. *)
Definition tallies (freq : table) (seen : list Z) : Prop :=
  NoDup freq.*1 /\
  Forall (fun e : Z * Z => 0 < e.2) freq /\
  forall v : Z, cnt v freq = occ v seen.

(** A computation that hands the store back as it received it. *)
Definition read_only {A : Type} (c : M A) : Prop :=
  forall s a s', c s = Ret (a, s') -> s' = s.

(** An array of [2^31] elements, the shortest one in which [INT_MAX] is an
    index. *)
Definition huge_array : list Z := replicate (Z.to_nat 2147483648) 0.

(** The values an [int] can hold. *)
Definition is_int (x : Z) : Prop := -2147483648 <= x <= INT_MAX.

(** The queries on which the body of the loop has defined behaviour: three
    components at least, and either an empty range or one inside the array
    whose upper end is not the largest [int]. *)
Definition query_defined (array : list Z) (query : list Z) : Prop :=
  exists l r t rest,
    query = l :: r :: t :: rest /\
    (r < l \/ (in_range array l r /\ r < INT_MAX)).

(** * Proofs *)

(** ** Running the monad *)

Lemma bind_Ret {A B : Type} (c : M A) (k : A -> M B) s b s' :
  (x <- c ;; k x) s = Ret (b, s') ->
  exists a s1, c s = Ret (a, s1) /\ k a s1 = Ret (b, s').
Proof.
  unfold bind. destruct (c s) as [[a s1]| |]; [eauto | discriminate..].
Qed.

Lemma bind_run {A B : Type} (c : M A) (k : A -> M B) s a s1 :
  c s = Ret (a, s1) -> (x <- c ;; k x) s = k a s1.
Proof. unfold bind. now intros ->. Qed.

Lemma bind_not_Diverge {A B : Type} (c : M A) (k : A -> M B) s :
  c s <> Diverge ->
  (forall a s1, c s = Ret (a, s1) -> k a s1 <> Diverge) ->
  (x <- c ;; k x) s <> Diverge.
Proof.
  unfold bind. intros Hc Hk. destruct (c s) as [[a s1]| |]; [eauto | easy..].
Qed.

Lemma int_incr_Ret x s y s' :
  int_incr x s = Ret (y, s') -> s' = s /\ y = x + 1 /\ x <> INT_MAX.
Proof.
  unfold int_incr. destruct (Z.eqb_spec x INT_MAX); [discriminate|].
  unfold ret. now intros [= <- <-].
Qed.

Lemma int_incr_run x s : x <> INT_MAX -> int_incr x s = Ret (x + 1, s).
Proof.
  intros Hx. unfold int_incr. now destruct (Z.eqb_spec x INT_MAX).
Qed.

Lemma nums_at_Ret i s x s' :
  nums_at i s = Ret (x, s') ->
  s' = s /\ 0 <= i /\ nums s !! Z.to_nat i = Some x.
Proof.
  unfold nums_at. destruct (Z.ltb_spec i 0); [discriminate|].
  destruct (nums s !! Z.to_nat i) as [y|]; [|discriminate].
  now intros [= <- <-].
Qed.

Lemma nums_at_run i s x :
  0 <= i -> nums s !! Z.to_nat i = Some x -> nums_at i s = Ret (x, s).
Proof.
  intros Hi Hx. unfold nums_at. destruct (Z.ltb_spec i 0); [lia|].
  now rewrite Hx.
Qed.

Lemma query_at_Ret j k s x s' :
  query_at j k s = Ret (x, s') ->
  s' = s /\ exists query, queries s !! j = Some query /\ query !! k = Some x.
Proof.
  unfold query_at. destruct (queries s !! j) as [q|]; [|discriminate].
  destruct (q !! k) as [y|] eqn:Hy; [|discriminate].
  intros [= <- <-]. eauto.
Qed.

Lemma query_at_run j k s query x :
  queries s !! j = Some query -> query !! k = Some x ->
  query_at j k s = Ret (x, s).
Proof. intros Hq Hx. unfold query_at. now rewrite Hq, Hx. Qed.

(** ** The frequency table *)

Lemma incr_Ret k freq s freq' s' :
  incr k freq s = Ret (freq', s') ->
  s' = s /\
  (forall v, cnt v freq' = cnt v freq + (if k =? v then 1 else 0)) /\
  (freq'.*1 = if decide (k ∈ freq.*1) then freq.*1 else freq.*1 ++ [k]) /\
  (Forall (fun e : Z * Z => 0 < e.2) freq ->
   Forall (fun e : Z * Z => 0 < e.2) freq').
Proof.
  revert freq'. induction freq as [|[k' c] rest IH]; intros freq' H; simpl in H.
  - apply bind_Ret in H as (c & s1 & Hc & H).
    apply int_incr_Ret in Hc as (-> & -> & _).
    unfold ret in H. injection H as <- <-.
    split; [done|]. split; [|split].
    + intros v. simpl. destruct (Z.eqb_spec k v); lia.
    + reflexivity.
    + intros _. constructor; [simpl; lia | constructor].
  - destruct (Z.eqb_spec k' k) as [->|Hne].
    + apply bind_Ret in H as (c' & s1 & Hc & H).
      apply int_incr_Ret in Hc as (-> & -> & _).
      unfold ret in H. injection H as <- <-.
      split; [done|]. split; [|split].
      * intros v. simpl. destruct (Z.eqb_spec k v); lia.
      * rewrite decide_True; [done | apply elem_of_cons; now left].
      * intros Hpos. inversion Hpos as [|? ? Hc Hrest]; subst.
        constructor; [simpl in *; lia | done].
    + apply bind_Ret in H as (rest' & s1 & Hr & H).
      unfold ret in H. injection H as <- <-.
      destruct (IH _ Hr) as (-> & Hcnt & Hkeys & Hpos').
      split; [done|]. split; [|split].
      * intros v. simpl. destruct (Z.eqb_spec k' v); [|apply Hcnt].
        destruct (Z.eqb_spec k v); lia.
      * change (((k', c) :: rest').*1) with (k' :: rest'.*1).
        change (((k', c) :: rest).*1) with (k' :: rest.*1).
        rewrite Hkeys. destruct (decide (k ∈ rest.*1)) as [Hin|Hnin].
        -- rewrite decide_True; [done | apply elem_of_cons; now right].
        -- rewrite decide_False; [done|].
           intros [->|Hi]%elem_of_cons; [lia | done].
      * intros Hpos. inversion Hpos as [|? ? Hc Hrest]; subst.
        constructor; [done | auto].
Qed.

Lemma incr_run k freq s :
  cnt k freq <> INT_MAX -> exists freq', incr k freq s = Ret (freq', s).
Proof.
  induction freq as [|[k' c] rest IH]; intros Hc; simpl in *.
  - rewrite (bind_run _ _ _ _ _ (int_incr_run 0 s ltac:(unfold INT_MAX; lia))).
    eexists. reflexivity.
  - destruct (Z.eqb_spec k' k) as [->|Hne].
    + rewrite (bind_run _ _ _ _ _ (int_incr_run c s Hc)).
      eexists. reflexivity.
    + destruct (IH Hc) as [rest' Hr].
      rewrite (bind_run _ _ _ _ _ Hr). eexists. reflexivity.
Qed.

Lemma cnt_not_key v freq : v ∉ freq.*1 -> cnt v freq = 0.
Proof.
  induction freq as [|[k c] rest IH]; intros Hv; simpl; [done|].
  simpl in Hv. apply not_elem_of_cons in Hv as [Hne Hv].
  destruct (Z.eqb_spec k v); [congruence | auto].
Qed.

Lemma cnt_entry k c freq :
  NoDup freq.*1 -> (k, c) ∈ freq -> cnt k freq = c.
Proof.
  induction freq as [|[k' c'] rest IH]; intros Hnd Hin.
  - now apply elem_of_nil in Hin.
  - simpl in Hnd. apply NoDup_cons in Hnd as [Hk' Hnd].
    apply elem_of_cons in Hin as [[= <- <-]|Hin]; simpl.
    + now rewrite Z.eqb_refl.
    + destruct (Z.eqb_spec k' k) as [->|_]; [|auto].
      exfalso. apply Hk'. apply list_elem_of_fmap. now exists (k, c).
Qed.

Lemma entry_of_cnt v freq : cnt v freq <> 0 -> (v, cnt v freq) ∈ freq.
Proof.
  induction freq as [|[k c] rest IH]; intros Hc; simpl in *; [done|].
  destruct (Z.eqb_spec k v) as [->|_]; [left | right; auto].
Qed.

Lemma occ_app v l1 l2 : occ v (l1 ++ l2) = occ v l1 + occ v l2.
Proof. induction l1 as [|x l1 IH]; simpl; lia. Qed.

Lemma occ_bounds v l : 0 <= occ v l <= Z.of_nat (length l).
Proof.
  induction l as [|x l IH]; simpl; [lia|]. destruct (x =? v); lia.
Qed.

Lemma occ_pos_elem v l : 0 < occ v l <-> v ∈ l.
Proof.
  induction l as [|x l IH]; simpl.
  - split; [lia | intros H; now apply elem_of_nil in H].
  - rewrite elem_of_cons. pose proof (occ_bounds v l).
    destruct (Z.eqb_spec x v) as [->|Hne].
    + split; [now left | lia].
    + rewrite Z.add_0_l, IH. split; [now right | intros [->|]; [done|done]].
Qed.

Lemma tallies_nil : tallies [] [].
Proof. repeat split; simpl; [constructor | constructor]. Qed.

Lemma tallies_incr k freq seen s freq' s' :
  tallies freq seen -> incr k freq s = Ret (freq', s') ->
  tallies freq' (seen ++ [k]).
Proof.
  intros (Hnd & Hpos & Hcnt) H.
  apply incr_Ret in H as (_ & Hcnt' & Hkeys & Hpos').
  split; [|split; [auto|]].
  - rewrite Hkeys. destruct (decide (k ∈ freq.*1)) as [|Hnin]; [done|].
    apply NoDup_app. split; [done|]. split; [|apply NoDup_singleton].
    intros x Hx Hx'. apply list_elem_of_singleton in Hx' as ->. done.
  - intros v. rewrite Hcnt', Hcnt, occ_app. simpl. lia.
Qed.

(** The entries of a table are the values seen, each with its count. *)
Lemma tallies_entry freq seen k c :
  tallies freq seen -> (k, c) ∈ freq <-> c = occ k seen /\ 0 < c.
Proof.
  intros (Hnd & Hpos & Hcnt). split.
  - intros Hin. split.
    + rewrite <- Hcnt. symmetry. now apply cnt_entry.
    + rewrite Forall_forall in Hpos. apply (Hpos _ Hin).
  - intros [-> Hc]. rewrite <- Hcnt in *. apply entry_of_cnt. lia.
Qed.

(** ** Computations that only read the store *)

Lemma read_only_ret {A : Type} (a : A) : read_only (ret a).
Proof. intros s b s'. unfold ret. now intros [= _ <-]. Qed.

Lemma read_only_bind {A B : Type} (c : M A) (k : A -> M B) :
  read_only c -> (forall a, read_only (k a)) ->
  read_only (x <- c ;; k x).
Proof.
  intros Hc Hk s b s' H. apply bind_Ret in H as (a & s1 & H1 & H2).
  apply Hc in H1 as ->. now apply Hk in H2.
Qed.

Lemma read_only_int_incr x : read_only (int_incr x).
Proof. intros s y s' H. now apply int_incr_Ret in H. Qed.

Lemma read_only_nums_at i : read_only (nums_at i).
Proof. intros s y s' H. now apply nums_at_Ret in H. Qed.

Lemma read_only_query_at j k : read_only (query_at j k).
Proof. intros s y s' H. now apply query_at_Ret in H. Qed.

Lemma read_only_queries_size : read_only queries_size.
Proof. intros s n s'. unfold queries_size. now intros [= _ <-]. Qed.

Lemma read_only_incr k freq : read_only (incr k freq).
Proof. intros s t s' H. now apply incr_Ret in H. Qed.

Lemma read_only_count_loop fuel right i freq :
  read_only (Solution.count_loop fuel right i freq).
Proof.
  revert i freq. induction fuel as [|fuel IH]; intros i freq; simpl.
  - intros s t s'. discriminate.
  - destruct (i <=? right); [|apply read_only_ret].
    apply read_only_bind; [apply read_only_nums_at | intros x].
    apply read_only_bind; [apply read_only_incr | intros freq'].
    apply read_only_bind; [apply read_only_int_incr | intros i']. apply IH.
Qed.

Lemma read_only_query_body order j : read_only (Solution.query_body order j).
Proof.
  unfold Solution.query_body.
  repeat (apply read_only_bind; [apply read_only_query_at | intros ?]).
  apply read_only_bind; [apply read_only_count_loop | intros freq].
  apply read_only_ret.
Qed.

Lemma read_only_query_loop order n j result :
  read_only (Solution.query_loop order n j result).
Proof.
  revert j result. induction n as [|n IH]; intros j result; simpl.
  - apply read_only_ret.
  - apply read_only_bind; [apply read_only_query_body | intros a; apply IH].
Qed.

Lemma read_only_numOfSubarrays order :
  read_only (Solution.numOfSubarrays order).
Proof.
  unfold Solution.numOfSubarrays.
  apply read_only_bind; [apply read_only_queries_size | intros n].
  apply read_only_query_loop.
Qed.

(** Two runs of a read-only computation from two stores give the same value
    when its first part and its continuation do. *)
Lemma bind_value_eq {A B : Type} (c : M A) (k : A -> M B) s1 s2 :
  read_only c ->
  value (c s1) = value (c s2) ->
  (forall a, c s1 = Ret (a, s1) -> value (k a s1) = value (k a s2)) ->
  value ((x <- c ;; k x) s1) = value ((x <- c ;; k x) s2).
Proof.
  intros Hro Hc Hk. unfold bind.
  destruct (c s1) as [[a s1']| |] eqn:E1, (c s2) as [[a' s2']| |] eqn:E2;
    simpl in Hc; try discriminate; try reflexivity.
  injection Hc as <-.
  apply Hro in E1 as ->. apply Hro in E2 as ->. now apply Hk.
Qed.

Lemma int_incr_value x s1 s2 :
  value (int_incr x s1) = value (int_incr x s2).
Proof. unfold int_incr. now destruct (x =? INT_MAX). Qed.

Lemma incr_value k freq s1 s2 :
  value (incr k freq s1) = value (incr k freq s2).
Proof.
  induction freq as [|[k' c] rest IH]; simpl.
  - reflexivity.
  - destruct (k' =? k).
    + apply bind_value_eq; [apply read_only_int_incr | apply int_incr_value |].
      reflexivity.
    + apply bind_value_eq; [apply read_only_incr | apply IH | reflexivity].
Qed.

Lemma int_incr_not_Diverge x s : int_incr x s <> Diverge.
Proof. unfold int_incr. now destruct (x =? INT_MAX). Qed.

Lemma incr_not_Diverge k freq s : incr k freq s <> Diverge.
Proof.
  induction freq as [|[k' c] rest IH]; simpl.
  - discriminate.
  - destruct (k' =? k).
    + apply bind_not_Diverge; [apply int_incr_not_Diverge | discriminate].
    + apply bind_not_Diverge; [apply IH | discriminate].
Qed.

(** ** The range scan *)

Lemma slice_cons array i right x :
  0 <= i -> i <= right -> array !! Z.to_nat i = Some x ->
  slice array i right = x :: slice array (i + 1) right.
Proof.
  intros Hi Hr Hx. unfold slice.
  rewrite (drop_S _ _ _ Hx).
  replace (Z.to_nat (right - i + 1)) with (S (Z.to_nat (right - (i + 1) + 1)))
    by lia.
  replace (Z.to_nat (i + 1)) with (S (Z.to_nat i)) by lia.
  reflexivity.
Qed.

Lemma slice_empty array i right : right < i -> slice array i right = [].
Proof.
  intros H. unfold slice.
  replace (Z.to_nat (right - i + 1)) with 0%nat by lia. reflexivity.
Qed.

(** A run of the range scan that completes leaves the store alone and has
    counted exactly the elements of [array[i..right]]. *)
Lemma count_loop_Ret fuel right i freq seen s T s' :
  Solution.count_loop fuel right i freq s = Ret (T, s') ->
  tallies freq seen ->
  s' = s /\ tallies T (seen ++ slice (nums s) i right).
Proof.
  revert i freq seen.
  induction fuel as [|fuel IH]; intros i freq seen H Ht; simpl in H.
  - discriminate.
  - destruct (Z.leb_spec i right) as [Hle|Hgt].
    + apply bind_Ret in H as (x & s1 & Hx & H).
      apply nums_at_Ret in Hx as (-> & Hi & Hx).
      apply bind_Ret in H as (freq' & s2 & Hf & H).
      pose proof (tallies_incr _ _ _ _ _ _ Ht Hf) as Ht'.
      apply read_only_incr in Hf as ->.
      apply bind_Ret in H as (i' & s3 & Hi' & H).
      apply int_incr_Ret in Hi' as (-> & -> & _).
      destruct (IH _ _ _ H Ht') as [-> HT]. split; [done|].
      rewrite (slice_cons _ _ _ _ Hi Hle Hx).
      now rewrite <- app_assoc in HT.
    + unfold ret in H. injection H as <- <-. split; [done|].
      now rewrite slice_empty, app_nil_r by lia.
Qed.

(** With the budget the caller gives it, the range scan never runs out. *)
Lemma count_loop_not_Diverge fuel right i freq s :
  (Z.to_nat (right - i + 1) < fuel)%nat ->
  Solution.count_loop fuel right i freq s <> Diverge.
Proof.
  revert i freq s. induction fuel as [|fuel IH]; intros i freq s Hf; [lia|].
  simpl. destruct (Z.leb_spec i right) as [Hle|Hgt]; [|discriminate].
  apply bind_not_Diverge.
  { unfold nums_at. destruct (i <? 0); [discriminate|].
    now destruct (nums s !! Z.to_nat i). }
  intros x s1 _. apply bind_not_Diverge; [apply incr_not_Diverge|].
  intros freq' s2 _. apply bind_not_Diverge; [apply int_incr_not_Diverge|].
  intros i' s3 Hi'. apply int_incr_Ret in Hi' as (_ & -> & _).
  apply IH. lia.
Qed.

(** A larger budget changes nothing once the scan has not run out. *)
Lemma count_loop_more_fuel fuel fuel' right i freq s :
  (fuel <= fuel')%nat ->
  Solution.count_loop fuel right i freq s <> Diverge ->
  Solution.count_loop fuel' right i freq s =
  Solution.count_loop fuel right i freq s.
Proof.
  revert fuel' i freq s.
  induction fuel as [|fuel IH]; intros fuel' i freq s Hle Hnd; [done|].
  destruct fuel' as [|fuel']; [lia|]. simpl in *.
  destruct (i <=? right); [|reflexivity]. unfold bind in *.
  destruct (nums_at i s) as [[x s1]| |]; [|reflexivity..].
  destruct (incr x freq s1) as [[freq' s2]| |]; [|reflexivity..].
  destruct (int_incr i s2) as [[i' s3]| |]; [|reflexivity..].
  apply IH; [lia | done].
Qed.

(** It completes when the indices are in range and [right] is not the
    largest [int]. *)
Lemma count_loop_run fuel right i freq seen s :
  (Z.to_nat (right - i + 1) < fuel)%nat ->
  0 <= i -> right < Z.of_nat (length (nums s)) -> right < INT_MAX ->
  tallies freq seen -> Z.of_nat (length seen) <= i ->
  exists T, Solution.count_loop fuel right i freq s = Ret (T, s).
Proof.
  revert i freq seen.
  induction fuel as [|fuel IH]; intros i freq seen Hf Hi Hr Hmax Ht Hseen;
    [lia|].
  simpl. destruct (Z.leb_spec i right) as [Hle|Hgt]; [|eexists; reflexivity].
  destruct (lookup_lt_is_Some_2 (nums s) (Z.to_nat i) ltac:(lia)) as [x Hx].
  rewrite (bind_run _ _ _ _ _ (nums_at_run _ _ _ Hi Hx)).
  destruct (incr_run x freq s) as [freq' Hf'].
  { destruct Ht as (_ & _ & Hc). rewrite Hc.
    pose proof (occ_bounds x seen). lia. }
  rewrite (bind_run _ _ _ _ _ Hf').
  rewrite (bind_run _ _ _ _ _ (int_incr_run i s ltac:(lia))).
  apply (IH _ _ (seen ++ [x])); try lia.
  - eapply tallies_incr; eauto.
  - rewrite length_app. simpl. lia.
Qed.

(** It cannot complete when [right] is the largest [int]: the index would
    have to be incremented past it. *)
Lemma count_loop_INT_MAX fuel i freq s T s' :
  i <= INT_MAX ->
  Solution.count_loop fuel INT_MAX i freq s <> Ret (T, s').
Proof.
  revert i freq s. induction fuel as [|fuel IH]; intros i freq s Hi H;
    simpl in H; [discriminate|].
  destruct (Z.leb_spec i INT_MAX) as [_|Hgt]; [|lia].
  apply bind_Ret in H as (x & s1 & _ & H).
  apply bind_Ret in H as (freq' & s2 & _ & H).
  apply bind_Ret in H as (i' & s3 & Hi' & H).
  apply int_incr_Ret in Hi' as (_ & -> & Hne).
  apply IH in H; [done | lia].
Qed.

(** The range scan reads the array only at the indices it is asked for. *)
Lemma count_loop_agree fuel right i freq nums1 nums2 qs :
  (forall k, i <= k <= right -> nums1 !! Z.to_nat k = nums2 !! Z.to_nat k) ->
  value (Solution.count_loop fuel right i freq (Store nums1 qs)) =
  value (Solution.count_loop fuel right i freq (Store nums2 qs)).
Proof.
  revert i freq. induction fuel as [|fuel IH]; intros i freq Hag; simpl.
  - reflexivity.
  - destruct (Z.leb_spec i right) as [Hle|Hgt]; [|reflexivity].
    apply bind_value_eq; [apply read_only_nums_at | |].
    { unfold nums_at. simpl. rewrite (Hag i) by lia. destruct (i <? 0); [done|].
      now destruct (nums2 !! Z.to_nat i). }
    intros x _.
    apply bind_value_eq; [apply read_only_incr | apply incr_value |].
    intros freq' _.
    apply bind_value_eq; [apply read_only_int_incr | apply int_incr_value |].
    intros i' Hi'. apply int_incr_Ret in Hi' as (_ & -> & _).
    apply IH. intros k Hk. apply Hag. lia.
Qed.

(** ** The scan of the frequency table *)

(** One step of the scan replaces the current candidate by the entry exactly
    when the entry meets the threshold and there is no candidate yet (the
    answer is still [-1]), or it has a higher count, or the same count and a
    smaller key. *)
Lemma scan_step_cases t a m e :
  Solution.scan_step t (a, m) e =
  if decide (t <= e.2 /\ (a = -1 \/ m < e.2 \/ (e.2 = m /\ e.1 < a)))
  then e else (a, m).
Proof.
  destruct e as [k c]. unfold Solution.scan_step. simpl.
  rewrite Z.geb_leb, Z.gtb_ltb.
  destruct (Z.leb_spec t c), (Z.eqb_spec a (-1)), (Z.ltb_spec m c),
    (Z.eqb_spec c m), (Z.ltb_spec k a); simpl;
    case_decide; try reflexivity; exfalso; lia.
Qed.

Lemma scan_fold_inv t es :
  let st := fold_left (Solution.scan_step t) es (-1, 0) in
  (st = (-1, 0) /\ Forall (fun e : Z * Z => e.2 < t) es) \/
  (st ∈ es /\ t <= st.2 /\
   ((forall c, (-1, c) ∈ es -> c < t) ->
    Forall (fun e : Z * Z =>
              t <= e.2 -> e.2 < st.2 \/ (e.2 = st.2 /\ st.1 <= e.1)) es)).
Proof.
  induction es as [|e es IH] using rev_ind; simpl.
  - left. split; [reflexivity | constructor].
  - rewrite fold_left_app. simpl.
    destruct (fold_left (Solution.scan_step t) es (-1, 0)) as [a m] eqn:Hst.
    rewrite scan_step_cases. simpl in IH.
    destruct IH as [[[= -> ->] Hall] | (Hin & Hm & Hbest)].
    + case_decide as Hc.
      * right. split; [apply elem_of_app; right; apply list_elem_of_singleton; done|].
        split; [lia|]. intros _. apply Forall_app. split.
        -- eapply Forall_impl; [exact Hall|]. simpl. intros; lia.
        -- constructor; [|constructor]. intros _. right. lia.
      * left. split; [reflexivity|]. apply Forall_app. split; [done|].
        constructor; [|constructor]. lia.
    + simpl in Hm. case_decide as Hc.
      * right. split; [apply elem_of_app; right; apply list_elem_of_singleton; done|].
        split; [lia|]. intros Hno.
        assert (Ha : a <> -1).
        { intros ->. assert (m < t); [|lia].
          apply Hno, elem_of_app. now left. }
        apply Forall_app. split.
        -- eapply Forall_impl.
           { apply Hbest. intros c Hc'. apply Hno, elem_of_app. now left. }
           simpl. intros e' He' Ht. specialize (He' Ht). lia.
        -- constructor; [|constructor]. intros _. right. lia.
      * right. split; [apply elem_of_app; now left|]. split; [done|].
        intros Hno.
        assert (Ha : a <> -1).
        { intros ->. assert (m < t); [|lia].
          apply Hno, elem_of_app. now left. }
        apply Forall_app. split.
        -- apply Hbest. intros c Hc'. apply Hno. apply elem_of_app. now left.
        -- constructor; [|constructor]. simpl. intros Ht. lia.
Qed.

(** The answer of the scan over a table that tallies [range], whatever the
    order of enumeration: [-1] with no value of the range at the threshold,
    or a value of the range at the threshold which, when [-1] itself is below
    the threshold, is not [-1] and is beaten by no other. *)
Lemma scan_tallied order t T range :
  enumerates order -> tallies T range ->
  let a := Solution.scan t (order T) in
  (a = -1 /\ forall v, v ∈ range -> occ v range < t) \/
  (a ∈ range /\ t <= occ a range /\
   (occ (-1) range < t ->
    a <> -1 /\
    forall v, v ∈ range -> t <= occ v range ->
      occ v range < occ a range \/ (occ v range = occ a range /\ a <= v))).
Proof.
  intros Hen HT. unfold Solution.scan.
  pose proof (scan_fold_inv t (order T)) as Hinv. simpl in Hinv.
  destruct (fold_left (Solution.scan_step t) (order T) (-1, 0)) as [a m].
  simpl. rewrite (Hen T) in Hinv.
  destruct Hinv as [[[= -> ->] Hall] | (Hin & Hm & Hbest)].
  - left. split; [reflexivity|]. intros v Hv.
    apply occ_pos_elem in Hv.
    assert (He : (v, occ v range) ∈ T) by (apply (tallies_entry _ _ _ _ HT); auto).
    rewrite Forall_forall in Hall. apply (Hall _ He).
  - right. simpl in Hm.
    apply (tallies_entry _ _ _ _ HT) in Hin as [-> Hpos].
    split; [now apply occ_pos_elem|]. split; [done|]. intros Hm1.
    split; [intros ->; lia|].
    intros v Hv Ht. apply occ_pos_elem in Hv.
    assert (He : (v, occ v range) ∈ T) by (apply (tallies_entry _ _ _ _ HT); auto).
    assert (Hall : Forall (fun e : Z * Z =>
      t <= e.2 ->
      e.2 < occ a range \/ (e.2 = occ a range /\ a <= e.1)) T).
    { apply Hbest. intros c Hc. rewrite (Hen T) in Hc.
      apply (tallies_entry _ _ _ _ HT) in Hc as [-> _]. done. }
    rewrite Forall_forall in Hall. apply (Hall _ He Ht).
Qed.

(** ** One query *)

Lemma query_body_Ret order j s a s' l r t rest :
  Solution.query_body order j s = Ret (a, s') ->
  queries s !! j = Some (l :: r :: t :: rest) ->
  s' = s /\
  exists T,
    Solution.count_loop (S (Z.to_nat (r - l + 1))) r l [] s = Ret (T, s) /\
    tallies T (slice (nums s) l r) /\ a = Solution.scan t (order T).
Proof.
  intros H Hq. unfold Solution.query_body in H.
  apply bind_Ret in H as (left & s1 & Hl & H).
  apply query_at_Ret in Hl as (-> & q0 & Hq0 & Hl).
  apply bind_Ret in H as (right & s1 & Hr & H).
  apply query_at_Ret in Hr as (-> & q1 & Hq1 & Hr).
  apply bind_Ret in H as (threshold & s1 & Ht & H).
  apply query_at_Ret in Ht as (-> & q2 & Hq2 & Ht).
  rewrite Hq in Hq0, Hq1, Hq2.
  injection Hq0 as <-. injection Hq1 as <-. injection Hq2 as <-.
  simpl in Hl, Hr, Ht. injection Hl as <-. injection Hr as <-.
  injection Ht as <-.
  apply bind_Ret in H as (T & s1 & HT & H).
  destruct (count_loop_Ret _ _ _ _ [] _ _ _ HT tallies_nil) as [-> HT'].
  unfold ret in H. injection H as <- <-. split; [done|]. now exists T.
Qed.

Lemma query_body_run order j s l r t rest :
  queries s !! j = Some (l :: r :: t :: rest) ->
  in_range (nums s) l r -> r < INT_MAX ->
  exists a, Solution.query_body order j s = Ret (a, s).
Proof.
  intros Hq (Hl & Hlr & Hr) Hmax. unfold Solution.query_body.
  rewrite (bind_run _ _ _ _ _ (query_at_run j 0 s _ l Hq eq_refl)).
  rewrite (bind_run _ _ _ _ _ (query_at_run j 1 s _ r Hq eq_refl)).
  rewrite (bind_run _ _ _ _ _ (query_at_run j 2 s _ t Hq eq_refl)).
  destruct (count_loop_run (S (Z.to_nat (r - l + 1))) r l [] [] s)
    as [T HT]; [lia | done | done | done | apply tallies_nil | simpl; lia |].
  rewrite (bind_run _ _ _ _ _ HT). eexists. reflexivity.
Qed.

Lemma query_body_not_Diverge order j s :
  Solution.query_body order j s <> Diverge.
Proof.
  unfold Solution.query_body.
  apply bind_not_Diverge.
  { unfold query_at. destruct (queries s !! j) as [q|]; [|discriminate].
    now destruct (q !! 0%nat). }
  intros l s1 _. apply bind_not_Diverge.
  { unfold query_at. destruct (queries s1 !! j) as [q|]; [|discriminate].
    now destruct (q !! 1%nat). }
  intros r s2 _. apply bind_not_Diverge.
  { unfold query_at. destruct (queries s2 !! j) as [q|]; [|discriminate].
    now destruct (q !! 2%nat). }
  intros t s3 _. apply bind_not_Diverge; [|discriminate].
  apply count_loop_not_Diverge. lia.
Qed.

(** ** The loop over the queries *)

Lemma query_loop_Ret order n j result s out s' :
  Solution.query_loop order n j result s = Ret (out, s') ->
  s' = s /\
  exists answers,
    out = result ++ answers /\ length answers = n /\
    forall k a, answers !! k = Some a ->
      Solution.query_body order (j + k) s = Ret (a, s).
Proof.
  revert j result. induction n as [|n IH]; intros j result H; simpl in H.
  - unfold ret in H. injection H as <- <-. split; [done|].
    exists []. rewrite app_nil_r. repeat split. intros k a Hk.
    now rewrite lookup_nil in Hk.
  - apply bind_Ret in H as (a & s1 & Ha & H).
    pose proof (read_only_query_body _ _ _ _ _ Ha) as ->.
    apply IH in H as (-> & answers & -> & Hlen & Hans). split; [done|].
    exists (a :: answers). rewrite <- app_assoc. simpl.
    split; [done|]. split; [now rewrite Hlen|].
    intros [|k] b Hk; simpl in Hk.
    + injection Hk as <-. now rewrite Nat.add_0_r.
    + rewrite Nat.add_succ_r. now apply Hans.
Qed.

Lemma query_loop_run order n j result s :
  (forall k, (k < n)%nat ->
     exists a, Solution.query_body order (j + k) s = Ret (a, s)) ->
  exists out, Solution.query_loop order n j result s = Ret (out, s).
Proof.
  revert j result. induction n as [|n IH]; intros j result Hall; simpl.
  - eexists. reflexivity.
  - destruct (Hall 0%nat ltac:(lia)) as [a Ha]. rewrite Nat.add_0_r in Ha.
    rewrite (bind_run _ _ _ _ _ Ha). apply IH. intros k Hk.
    rewrite Nat.add_succ_l, <- Nat.add_succ_r. apply Hall. lia.
Qed.

Lemma query_loop_not_Diverge order n j result s :
  Solution.query_loop order n j result s <> Diverge.
Proof.
  revert j result s. induction n as [|n IH]; intros j result s; simpl.
  - discriminate.
  - apply bind_not_Diverge; [apply query_body_not_Diverge | intros; apply IH].
Qed.

(** The call returns [out] exactly when the body of the loop returns
    [out[j]] for every query index [j], and then the store is the one
    received. *)
Lemma numOfSubarrays_Ret order s out s' :
  Solution.numOfSubarrays order s = Ret (out, s') ->
  s' = s /\ length out = length (queries s) /\
  forall j a, out !! j = Some a ->
    Solution.query_body order j s = Ret (a, s).
Proof.
  unfold Solution.numOfSubarrays. intros H.
  apply bind_Ret in H as (n & s1 & Hn & H).
  unfold queries_size in Hn. injection Hn as <- <-.
  apply query_loop_Ret in H as (-> & answers & -> & Hlen & Hans).
  simpl. repeat split; [done|]. intros j a Hj. now apply Hans.
Qed.

Lemma numOfSubarrays_run order s :
  (forall j, (j < length (queries s))%nat ->
     exists a, Solution.query_body order j s = Ret (a, s)) ->
  exists out, Solution.numOfSubarrays order s = Ret (out, s).
Proof.
  intros Hall. unfold Solution.numOfSubarrays.
  rewrite (bind_run _ _ s (length (queries s)) s eq_refl).
  apply query_loop_run. intros k Hk. now apply Hall.
Qed.

(** What the call returns for a query, in terms of the range it names. *)
Lemma answer_cases order s out s' j l r t rest a :
  enumerates order ->
  Solution.numOfSubarrays order s = Ret (out, s') ->
  queries s !! j = Some (l :: r :: t :: rest) ->
  out !! j = Some a ->
  let range := slice (nums s) l r in
  (a = -1 /\ forall v, v ∈ range -> occ v range < t) \/
  (a ∈ range /\ t <= occ a range /\
   (occ (-1) range < t ->
    a <> -1 /\
    forall v, v ∈ range -> t <= occ v range ->
      occ v range < occ a range \/ (occ v range = occ a range /\ a <= v))).
Proof.
  intros Hen H Hq Ha.
  apply numOfSubarrays_Ret in H as (_ & _ & Hans).
  apply Hans in Ha.
  destruct (query_body_Ret _ _ _ _ _ _ _ _ _ Ha Hq) as (_ & T & _ & HT & ->).
  now apply scan_tallied.
Qed.

Lemma enumerates_insertion_order : enumerates insertion_order.
Proof. intros freq. reflexivity. Qed.

Lemma enumerates_reverse_order : enumerates reverse_order.
Proof. intros freq. symmetry. apply Permutation_rev. Qed.

Lemma numOfSubarrays_not_Diverge order s :
  Solution.numOfSubarrays order s <> Diverge.
Proof.
  unfold Solution.numOfSubarrays.
  apply bind_not_Diverge; [discriminate|]. intros. apply query_loop_not_Diverge.
Qed.

(** The table of a range of one element. *)
Lemma count_loop_single l x s T s' :
  0 <= l -> nums s !! Z.to_nat l = Some x ->
  Solution.count_loop (S (Z.to_nat (l - l + 1))) l l [] s = Ret (T, s') ->
  T = [(x, 1)].
Proof.
  intros Hl Hx H. replace (l - l + 1) with 1 in H by lia.
  change (Z.to_nat 1) with 1%nat in H.
  cbn [Solution.count_loop] in H. rewrite Z.leb_refl in H.
  rewrite (bind_run _ _ _ _ _ (nums_at_run _ _ _ Hl Hx)) in H.
  rewrite (bind_run _ _ s [(x, 1)] s eq_refl) in H.
  apply bind_Ret in H as (i' & s1 & Hi' & H).
  apply int_incr_Ret in Hi' as (-> & -> & _).
  destruct (Z.leb_spec (l + 1) l); [lia|].
  unfold ret in H. now injection H as <- <-.
Qed.

Lemma scan_single order t x :
  enumerates order ->
  Solution.scan t (order [(x, 1)]) = if t <=? 1 then x else -1.
Proof.
  intros Hen. pose proof (Hen [(x, 1)]) as Hp.
  apply Permutation_singleton_r in Hp as ->.
  unfold Solution.scan. cbn [fold_left]. rewrite scan_step_cases.
  cbn [fst snd]. destruct (Z.leb_spec t 1); case_decide; simpl;
    try reflexivity; lia.
Qed.

(** ** Ranges, and queries taken one at a time *)

Lemma slice_subseteq array l r v : v ∈ slice array l r -> v ∈ array.
Proof.
  unfold slice. intros H. eapply subseteq_drop, subseteq_take, H.
Qed.

Lemma length_slice_le array l r :
  Z.of_nat (length (slice array l r)) <= Z.max 0 (r - l + 1).
Proof. unfold slice. rewrite length_take. lia. Qed.

Lemma length_slice array l r :
  in_range array l r -> Z.of_nat (length (slice array l r)) = r - l + 1.
Proof.
  intros (Hl & Hlr & Hr). unfold slice. rewrite length_take, length_drop. lia.
Qed.

Lemma slice_constant array l r x :
  0 <= l ->
  (forall k, l <= k <= r -> array !! Z.to_nat k = Some x) ->
  Forall (fun y => y = x) (slice array l r).
Proof.
  intros Hl Hall. apply Forall_lookup. intros i y Hi. unfold slice in Hi.
  apply lookup_take_Some in Hi as [Hi Hlt]. rewrite lookup_drop in Hi.
  specialize (Hall (l + Z.of_nat i) ltac:(lia)).
  replace (Z.to_nat (l + Z.of_nat i)) with (Z.to_nat l + i)%nat in Hall by lia.
  congruence.
Qed.

Lemma occ_constant x l :
  Forall (fun y => y = x) l -> occ x l = Z.of_nat (length l).
Proof.
  induction 1 as [|y l -> _ IH]; simpl; [done|].
  rewrite Z.eqb_refl, IH. lia.
Qed.

Lemma count_loop_same_nums fuel right i freq s1 s2 :
  nums s1 = nums s2 ->
  value (Solution.count_loop fuel right i freq s1) =
  value (Solution.count_loop fuel right i freq s2).
Proof.
  intros Hn. revert i freq. induction fuel as [|fuel IH]; intros i freq; simpl.
  - reflexivity.
  - destruct (i <=? right); [|reflexivity].
    apply bind_value_eq; [apply read_only_nums_at | |].
    { unfold nums_at. rewrite Hn. destruct (i <? 0); [done|].
      now destruct (nums s2 !! Z.to_nat i). }
    intros x _.
    apply bind_value_eq; [apply read_only_incr | apply incr_value |].
    intros freq' _.
    apply bind_value_eq; [apply read_only_int_incr | apply int_incr_value |].
    intros i' _. apply IH.
Qed.

Lemma query_body_components order s1 s2 j1 j2 l r t rest1 rest2 :
  nums s1 = nums s2 ->
  queries s1 !! j1 = Some (l :: r :: t :: rest1) ->
  queries s2 !! j2 = Some (l :: r :: t :: rest2) ->
  value (Solution.query_body order j1 s1) =
  value (Solution.query_body order j2 s2).
Proof.
  intros Hn Hq1 Hq2. unfold Solution.query_body.
  rewrite (bind_run _ _ _ _ _ (query_at_run j1 0 s1 _ l Hq1 eq_refl)).
  rewrite (bind_run _ _ _ _ _ (query_at_run j1 1 s1 _ r Hq1 eq_refl)).
  rewrite (bind_run _ _ _ _ _ (query_at_run j1 2 s1 _ t Hq1 eq_refl)).
  rewrite (bind_run _ _ _ _ _ (query_at_run j2 0 s2 _ l Hq2 eq_refl)).
  rewrite (bind_run _ _ _ _ _ (query_at_run j2 1 s2 _ r Hq2 eq_refl)).
  rewrite (bind_run _ _ _ _ _ (query_at_run j2 2 s2 _ t Hq2 eq_refl)).
  apply bind_value_eq;
    [apply read_only_count_loop | now apply count_loop_same_nums
    | reflexivity].
Qed.

Lemma value_Ret {A : Type} (c : M A) s a :
  read_only c -> value (c s) = Ret a -> c s = Ret (a, s).
Proof.
  intros Hro Hv. destruct (c s) as [[b s1]| |] eqn:Hc; try discriminate.
  apply Hro in Hc as ->. simpl in Hv. now injection Hv as ->.
Qed.

Lemma query_body_short order j s q :
  queries s !! j = Some q -> (length q < 3)%nat ->
  Solution.query_body order j s = Undefined.
Proof.
  intros Hq Hlen. unfold Solution.query_body.
  destruct q as [|l [|r [|t rest]]]; [| | |simpl in Hlen; lia].
  - unfold bind, query_at. now rewrite Hq.
  - rewrite (bind_run _ _ _ _ _ (query_at_run j 0 s _ l Hq eq_refl)).
    unfold bind, query_at. now rewrite Hq.
  - rewrite (bind_run _ _ _ _ _ (query_at_run j 0 s _ l Hq eq_refl)).
    rewrite (bind_run _ _ _ _ _ (query_at_run j 1 s _ r Hq eq_refl)).
    unfold bind, query_at. now rewrite Hq.
Qed.

Lemma query_body_missing order j s :
  queries s !! j = None -> Solution.query_body order j s = Undefined.
Proof.
  intros Hq. unfold Solution.query_body, bind, query_at. now rewrite Hq.
Qed.

Lemma query_body_same_query order s1 s2 j1 j2 :
  nums s1 = nums s2 ->
  queries s1 !! j1 = queries s2 !! j2 ->
  value (Solution.query_body order j1 s1) =
  value (Solution.query_body order j2 s2).
Proof.
  intros Hn Hq. destruct (queries s2 !! j2) as [q|] eqn:Hq2.
  - destruct (le_lt_dec 3 (length q)) as [Hlen|Hlen].
    + destruct q as [|l [|r [|t rest]]]; try (simpl in Hlen; lia).
      now apply (query_body_components order s1 s2 j1 j2 l r t rest rest).
    + now rewrite (query_body_short order j1 s1 q Hq Hlen),
                  (query_body_short order j2 s2 q Hq2 Hlen).
  - now rewrite (query_body_missing order j1 s1 Hq),
                (query_body_missing order j2 s2 Hq2).
Qed.

Lemma numOfSubarrays_from_answers order s out :
  length out = length (queries s) ->
  (forall j a, out !! j = Some a ->
     value (Solution.query_body order j s) = Ret a) ->
  Solution.numOfSubarrays order s = Ret (out, s).
Proof.
  intros Hlen Hans.
  destruct (numOfSubarrays_run order s) as [out' H].
  { intros j Hj. destruct (lookup_lt_is_Some_2 out j) as [a Ha]; [lia|].
    exists a. apply value_Ret; [apply read_only_query_body | now apply Hans]. }
  rewrite H. do 2 f_equal.
  apply numOfSubarrays_Ret in H as (_ & Hlen' & Hans').
  apply list_eq. intros j.
  destruct (out' !! j) as [a'|] eqn:Ha'.
  - destruct (lookup_lt_is_Some_2 out j) as [a Ha].
    { apply lookup_lt_Some in Ha'. lia. }
    rewrite Ha. apply Hans in Ha. rewrite (Hans' _ _ Ha') in Ha.
    simpl in Ha. now injection Ha as ->.
  - symmetry. apply lookup_ge_None. apply lookup_ge_None in Ha'. lia.
Qed.

(** A call whose single query has [right == INT_MAX] has no defined
    result, in any array. *)
Lemma undefined_when_right_is_INT_MAX order s l t rest :
  queries s = [l :: INT_MAX :: t :: rest] -> l <= INT_MAX ->
  Solution.numOfSubarrays order s = Undefined.
Proof.
  intros Hq Hl.
  destruct (Solution.numOfSubarrays order s) as [[out s']| |] eqn:H.
  - exfalso.
    apply numOfSubarrays_Ret in H as (_ & Hlen & Hans).
    rewrite Hq in Hlen.
    destruct out as [|a out]; [discriminate|].
    specialize (Hans 0%nat a eq_refl).
    assert (Hq0 : queries s !! 0%nat = Some (l :: INT_MAX :: t :: rest))
      by now rewrite Hq.
    unfold Solution.query_body in Hans.
    rewrite (bind_run _ _ _ _ _ (query_at_run 0 0 s _ l Hq0 eq_refl)) in Hans.
    rewrite (bind_run _ _ _ _ _ (query_at_run 0 1 s _ INT_MAX Hq0 eq_refl))
      in Hans.
    rewrite (bind_run _ _ _ _ _ (query_at_run 0 2 s _ t Hq0 eq_refl)) in Hans.
    apply bind_Ret in Hans as (T & s2 & HT & _).
    exact (count_loop_INT_MAX _ _ _ _ _ _ Hl HT).
  - reflexivity.
  - exfalso. exact (numOfSubarrays_not_Diverge _ _ H).
Qed.

(** The call on the [j]-th query alone returns the answer the body of the
    loop computes for it within the batch. *)
Lemma call_on_single_query order s j query a :
  queries s !! j = Some query ->
  Solution.query_body order j s = Ret (a, s) ->
  Solution.numOfSubarrays order (Store (nums s) [query])
  = Ret ([a], Store (nums s) [query]).
Proof.
  intros Hq Ha. apply numOfSubarrays_from_answers; [reflexivity|].
  intros [|j'] a' Hj'; [|destruct j'; discriminate].
  injection Hj' as <-.
  rewrite (query_body_same_query order (Store (nums s) [query]) s 0 j eq_refl).
  - now rewrite Ha.
  - simpl. now rewrite Hq.
Qed.

Lemma query_body_Ret_components order j s a s' query :
  Solution.query_body order j s = Ret (a, s') ->
  queries s !! j = Some query ->
  exists l r t rest, query = l :: r :: t :: rest.
Proof.
  intros H Hq. destruct (le_lt_dec 3 (length query)) as [Hlen|Hlen].
  - destruct query as [|l [|r [|t rest]]]; try (simpl in Hlen; lia).
    now exists l, r, t, rest.
  - rewrite (query_body_short order j s query Hq Hlen) in H. discriminate.
Qed.

(** ** The entry the scan should stop at *)

(** Among the entries at the threshold there is one that none beats. *)
Lemma best_entry_exists t (es : list (Z * Z)) :
  (exists e, e ∈ es /\ t <= e.2) ->
  exists B, B ∈ es /\ t <= B.2 /\
    Forall (fun e : Z * Z =>
              t <= e.2 -> e.2 < B.2 \/ (e.2 = B.2 /\ B.1 <= e.1)) es.
Proof.
  induction es as [|e es IH]; intros (e0 & Hin & Ht).
  - now apply elem_of_nil in Hin.
  - destruct (decide (Exists (fun e' : Z * Z => t <= e'.2) es))
      as [Hex|Hnone].
    + apply Exists_exists in Hex.
      destruct (IH Hex) as (B & HB & HtB & Hall).
      destruct (decide (t <= e.2 /\ (B.2 < e.2 \/ (e.2 = B.2 /\ e.1 < B.1))))
        as [Hbeats|Hnot].
      * exists e. split; [apply elem_of_cons; now left|]. split; [lia|].
        constructor; [lia|].
        eapply Forall_impl; [exact Hall|]. simpl. intros e' He' Hte'.
        specialize (He' Hte'). lia.
      * exists B. split; [apply elem_of_cons; now right|]. split; [done|].
        constructor; [lia | exact Hall].
    + rewrite Exists_exists in Hnone.
      apply elem_of_cons in Hin as [->|Hin]; [|exfalso; apply Hnone; eauto].
      exists e. split; [apply elem_of_cons; now left|]. split; [done|].
      constructor; [lia|]. apply Forall_forall. intros e' He' Hte'.
      exfalso. apply Hnone. eauto.
Qed.

(** Once the candidate is an entry other than [-1] that none of the
    remaining entries beats, the scan keeps it. *)
Lemma scan_fold_stays t b m (es : list (Z * Z)) :
  b <> -1 ->
  Forall (fun e : Z * Z => t <= e.2 -> e.2 < m \/ (e.2 = m /\ b <= e.1)) es ->
  fold_left (Solution.scan_step t) es (b, m) = (b, m).
Proof.
  intros Hb. induction 1 as [|e es He _ IH]; [reflexivity|].
  cbn [fold_left]. rewrite scan_step_cases.
  rewrite decide_False; [exact IH | lia].
Qed.

(** The scan ends on the unbeaten entry whenever its key is not [-1], in
    whatever position the entry comes. *)
Lemma scan_best t (es : list (Z * Z)) b m :
  NoDup es.*1 -> (b, m) ∈ es -> t <= m -> b <> -1 ->
  Forall (fun e : Z * Z => t <= e.2 -> e.2 < m \/ (e.2 = m /\ b <= e.1)) es ->
  fold_left (Solution.scan_step t) es (-1, 0) = (b, m).
Proof.
  intros Hnd Hin Ht Hb Hall.
  apply list_elem_of_split in Hin as (P & Q & ->).
  rewrite fmap_app, fmap_cons in Hnd. cbn [fst] in Hnd.
  apply NoDup_app in Hnd as (_ & Hfresh & _).
  apply Forall_app in Hall as [HP HQ].
  apply Forall_cons in HQ as [_ HQ].
  rewrite fold_left_app. cbn [fold_left].
  pose proof (scan_fold_inv t P) as Hinv. simpl in Hinv.
  destruct (fold_left (Solution.scan_step t) P (-1, 0)) as [a m'].
  rewrite scan_step_cases. cbn [fst snd].
  rewrite decide_True; [now apply scan_fold_stays|].
  split; [done|].
  destruct Hinv as [[[= -> ->] _] | (HinP & Hm' & _)]; [now left | right].
  simpl in Hm'.
  assert (Hab : a <> b).
  { intros ->. apply (Hfresh b).
    - apply list_elem_of_fmap. now exists (b, m').
    - apply elem_of_cons. now left. }
  rewrite Forall_forall in HP. specialize (HP _ HinP Hm'). simpl in HP. lia.
Qed.

(** What the body of the loop returns for a query, whatever the array holds:
    [-1] with no value of the range at the threshold, or a value of the
    range at the threshold, which is the selected value of the range as soon
    as that one is not [-1]. *)
Lemma query_answer_or_selected order j s a s' l r t rest :
  enumerates order ->
  Solution.query_body order j s = Ret (a, s') ->
  queries s !! j = Some (l :: r :: t :: rest) ->
  (a = -1 /\
   forall v, v ∈ slice (nums s) l r -> occ v (slice (nums s) l r) < t) \/
  (a ∈ slice (nums s) l r /\ t <= occ a (slice (nums s) l r) /\
   exists b, b ∈ slice (nums s) l r /\
             selected t (slice (nums s) l r) b /\ (b <> -1 -> a = b)).
Proof.
  intros Hen Ha Hq.
  destruct (query_body_Ret _ _ _ _ _ _ _ _ _ Ha Hq) as (_ & T & _ & HT & ->).
  set (range := slice (nums s) l r) in *.
  unfold Solution.scan.
  pose proof (scan_fold_inv t (order T)) as Hinv. simpl in Hinv.
  assert (Hentry : forall k c, (k, c) ∈ order T <->
                               c = occ k range /\ 0 < c).
  { intros k c. rewrite (Hen T). apply (tallies_entry _ _ _ _ HT). }
  destruct (fold_left (Solution.scan_step t) (order T) (-1, 0)) as [a m] eqn:Hf.
  destruct Hinv as [[[= -> ->] Hall] | (Hin & Hm & _)].
  - left. split; [reflexivity|]. intros v Hv. apply occ_pos_elem in Hv.
    rewrite Forall_forall in Hall.
    apply (Hall (v, occ v range)). now apply Hentry.
  - right. simpl in Hm. pose proof Hin as Hin'.
    apply Hentry in Hin' as [-> Hpos].
    split; [now apply occ_pos_elem|]. split; [done|].
    destruct (best_entry_exists t (order T)) as ([b mb] & HB & HtB & Hbest).
    { exists (a, occ a range). split; [exact Hin | exact Hm]. }
    simpl in HtB. pose proof HB as HB'.
    apply Hentry in HB' as [-> Hbpos].
    rewrite Forall_forall in Hbest.
    assert (Hcmp : forall v, 0 < occ v range -> t <= occ v range ->
      occ v range < occ b range \/ (occ v range = occ b range /\ b <= v)).
    { intros v Hv Htv.
      apply (Hbest (v, occ v range)); [now apply Hentry | exact Htv]. }
    exists b. split; [now apply occ_pos_elem|]. split.
    + split; [done|]. intros v Hv. split.
      * intros [Hlt Htv]. specialize (Hcmp v ltac:(lia) Htv). lia.
      * intros [Heq Hlt]. specialize (Hcmp v ltac:(lia) ltac:(lia)). lia.
    + intros Hb.
      assert (Hnd : NoDup (order T).*1).
      { rewrite (Hen T). apply HT. }
      pose proof (scan_best t (order T) b (occ b range) Hnd HB HtB Hb) as Hs.
      rewrite Hf in Hs. simpl in Hs.
      assert (Heq : (a, occ a range) = (b, occ b range)).
      { apply Hs. apply Forall_forall. intros e He Hte. simpl.
        exact (Hbest e He Hte). }
      now injection Heq as ->.
Qed.

(** A value that does not occur in the array is selected in no range, for a
    threshold of 1 or more. *)
Lemma value_absent_not_selected array l r t v :
  v ∉ array -> 1 <= t -> ~ selected t (slice array l r) v.
Proof.
  intros Hv Ht [H _]. apply Hv. apply (slice_subseteq array l r).
  apply occ_pos_elem. lia.
Qed.

(** Bounds on the occurrences of an arbitrary value in a literal list. *)
Ltac occ_cases :=
  repeat match goal with
         | |- context [slice ?a ?l ?r] =>
             let v := eval vm_compute in (slice a l r) in
             change (slice a l r) with v
         end;
  cbn [occ];
  repeat match goal with
         | |- context [?x =? ?y] => destruct (Z.eqb_spec x y)
         | H : context [?x =? ?y] |- _ => destruct (Z.eqb_spec x y)
         end;
  lia.

(** * The properties of [Solution::numOfSubarrays] *)

(** ** The selected value *)

(** Where [-1] is not itself the selected value of the range, the call
    selects as the comment in the source says: an answer other than [-1] is
    the selected value. *)
Lemma answer_is_selected order s out s' j l r t rest a :
  enumerates order ->
  Solution.numOfSubarrays order s = Ret (out, s') ->
  queries s !! j = Some (l :: r :: t :: rest) ->
  ~ selected t (slice (nums s) l r) (-1) ->
  out !! j = Some a ->
  a <> -1 ->
  selected t (slice (nums s) l r) a.
Proof.
  intros Hen H Hq Hno Ha Hne.
  apply numOfSubarrays_Ret in H as (_ & _ & Hans). apply Hans in Ha.
  destruct (query_answer_or_selected _ _ _ _ _ _ _ _ _ Hen Ha Hq)
    as [[-> _] | (_ & _ & b & _ & Hsel & Hab)]; [done|].
  destruct (decide (b = -1)) as [->|Hb]; [done|].
  now rewrite (Hab Hb).
Qed.

(** C1 at a failing input.  For [[5,-1,-1]] and the query (0,2,1), with the
    table visited last-inserted first (the key [-1], then 5), the scan takes
    [-1] with count 2, and then the test [answer == -1] lets 5, count 1,
    replace it: the call returns 5, which is not [-1] and is not the
    selected value, since [-1] occurs twice. *)
Theorem priority_broken_by_minus_one :
  enumerates reverse_order /\
  valid_query [5; -1; -1] 0 2 1 /\
  Solution.numOfSubarrays reverse_order (Store [5; -1; -1] [[0; 2; 1]])
    = Ret ([5], Store [5; -1; -1] [[0; 2; 1]]) /\
  5 <> -1 /\
  occ 5 (slice [5; -1; -1] 0 2) = 1 /\
  occ (-1) (slice [5; -1; -1] 0 2) = 2 /\
  ~ selected 1 (slice [5; -1; -1] 0 2) 5.
Proof.
  split; [apply enumerates_reverse_order|].
  split; [unfold valid_query, in_range; simpl; lia|].
  split; [reflexivity|]. split; [lia|].
  split; [reflexivity|]. split; [reflexivity|].
  intros [_ H]. destruct (H (-1) ltac:(lia)) as [H1 _].
  apply H1. vm_compute. split; [reflexivity | discriminate].
Qed.

(** Where [-1] is not the selected value, ties at the maximum count go to
    the smallest value, in every order of enumeration. *)
Lemma answer_smallest_of_ties order s out s' j l r t rest a :
  enumerates order ->
  Solution.numOfSubarrays order s = Ret (out, s') ->
  queries s !! j = Some (l :: r :: t :: rest) ->
  valid_query (nums s) l r t ->
  ~ selected t (slice (nums s) l r) (-1) ->
  out !! j = Some a ->
  (exists v, at_max_count t (slice (nums s) l r) v) ->
  at_max_count t (slice (nums s) l r) a /\
  forall v, at_max_count t (slice (nums s) l r) v -> a <= v.
Proof.
  intros Hen H Hq [_ Ht1] Hno Ha [v0 [Hv0 Hmax0]].
  apply numOfSubarrays_Ret in H as (_ & _ & Hans). apply Hans in Ha.
  assert (Hin0 : v0 ∈ slice (nums s) l r) by (apply occ_pos_elem; lia).
  destruct (query_answer_or_selected _ _ _ _ _ _ _ _ _ Hen Ha Hq)
    as [[-> Hnone] | (_ & _ & b & Hbin & [Htb Hsel] & Hab)].
  { specialize (Hnone v0 Hin0). lia. }
  destruct (decide (b = -1)) as [->|Hb]; [now destruct Hno|].
  rewrite (Hab Hb) in *.
  assert (Heq : occ b (slice (nums s) l r) = occ v0 (slice (nums s) l r)).
  { destruct (decide (v0 = b)) as [->|Hne]; [done|].
    destruct (Hsel v0 Hne) as [H1 _]. specialize (Hmax0 b). lia. }
  split.
  - split; [done|]. intros w. rewrite Heq. apply Hmax0.
  - intros v [Hv Hmax]. destruct (decide (v = b)) as [->|Hne]; [lia|].
    destruct (Hsel v Hne) as [H1 H2]. specialize (Hmax b). lia.
Qed.

(** The example of the tie: [[1,1,2,2]] and the query (0,3,2) give 1 in
    every order of enumeration. *)
Lemma example_tie_returns_smallest order :
  enumerates order ->
  Solution.numOfSubarrays order (Store [1; 1; 2; 2] [[0; 3; 2]])
  = Ret ([1], Store [1; 1; 2; 2] [[0; 3; 2]]).
Proof.
  intros Hen. set (s := Store [1; 1; 2; 2] [[0; 3; 2]]).
  destruct (numOfSubarrays_run order s) as [out Hout].
  { intros j Hj. destruct j as [|j]; [|simpl in Hj; lia].
    apply (query_body_run order 0 s 0 3 2 []);
      [reflexivity | unfold in_range; simpl; lia | unfold INT_MAX; lia]. }
  destruct (numOfSubarrays_Ret _ _ _ _ Hout) as (_ & Hlen & _).
  destruct out as [|a [|b out]]; [discriminate | | discriminate].
  assert (Hmax1 : at_max_count 2 (slice (nums s) 0 3) 1).
  { split; [vm_compute; discriminate|]. intros w. occ_cases. }
  destruct (answer_smallest_of_ties order s [a] s 0%nat 0 3 2 [] a Hen Hout
              eq_refl) as [[Ha _] Hmin].
  - unfold valid_query, in_range. simpl. lia.
  - apply value_absent_not_selected; [|lia]. simpl. intros H.
    repeat (apply elem_of_cons in H as [H|H]; [discriminate|]).
    now apply elem_of_nil in H.
  - reflexivity.
  - now exists 1.
  - specialize (Hmin 1 Hmax1).
    assert (a = 1) as ->; [|exact Hout].
    revert Ha. occ_cases.
Qed.

(** C2 at a failing input.  For [[3,3,-1,-1]] and the query (0,3,2) the
    values 3 and [-1] are tied at the maximum count 2, which reaches the
    threshold, and the smallest of them is [-1].  With the table visited
    last-inserted first, the scan takes [-1] and then the test
    [answer == -1] lets 3 replace it: the call returns 3.  Visited
    first-inserted first, the same table gives [-1]: the order of the scan
    decides. *)
Theorem tie_break_broken_by_minus_one :
  valid_query [3; 3; -1; -1] 0 3 2 /\
  at_max_count 2 (slice [3; 3; -1; -1] 0 3) (-1) /\
  at_max_count 2 (slice [3; 3; -1; -1] 0 3) 3 /\
  enumerates reverse_order /\
  Solution.numOfSubarrays reverse_order (Store [3; 3; -1; -1] [[0; 3; 2]])
    = Ret ([3], Store [3; 3; -1; -1] [[0; 3; 2]]) /\
  ~ (3 <= -1) /\
  enumerates insertion_order /\
  Solution.numOfSubarrays insertion_order (Store [3; 3; -1; -1] [[0; 3; 2]])
    = Ret ([-1], Store [3; 3; -1; -1] [[0; 3; 2]]).
Proof.
  assert (Hocc : forall w, occ w [3; 3; -1; -1] <= 2).
  { intros w. occ_cases. }
  split; [unfold valid_query, in_range; simpl; lia|].
  split; [split; [vm_compute; discriminate | exact Hocc]|].
  split; [split; [vm_compute; discriminate | exact Hocc]|].
  split; [apply enumerates_reverse_order|]. split; [reflexivity|].
  split; [lia|].
  split; [apply enumerates_insertion_order | reflexivity].
Qed.

(** C3, as the code has it.  For a valid query in whose range [-1] is not
    itself the selected value, the answer is [-1] exactly when no value's
    count in [array[left..right]] reaches the threshold, in every order of
    enumeration; and when in addition [right < INT_MAX] the query completes
    with that answer as an ordinary result: the body of the loop returns it
    and the call on the query alone returns the one-element sequence holding
    it, with no error and the inputs unchanged. *)
Theorem answer_sentinel order s j l r t rest :
  enumerates order ->
  queries s !! j = Some (l :: r :: t :: rest) ->
  valid_query (nums s) l r t ->
  ~ selected t (slice (nums s) l r) (-1) ->
  (forall out s' a,
     Solution.numOfSubarrays order s = Ret (out, s') ->
     out !! j = Some a ->
     (a = -1 <-> forall v, occ v (slice (nums s) l r) < t)) /\
  (r < INT_MAX ->
   exists a,
     Solution.query_body order j s = Ret (a, s) /\
     Solution.numOfSubarrays order (Store (nums s) [l :: r :: t :: rest])
     = Ret ([a], Store (nums s) [l :: r :: t :: rest]) /\
     (a = -1 <-> forall v, occ v (slice (nums s) l r) < t)).
Proof.
  intros Hen Hq [Hin Ht1] Hno.
  assert (Hiff : forall a s1,
    Solution.query_body order j s = Ret (a, s1) ->
    (a = -1 <-> forall v, occ v (slice (nums s) l r) < t)).
  { intros a s1 Ha.
    destruct (query_answer_or_selected _ _ _ _ _ _ _ _ _ Hen Ha Hq)
      as [[-> Hnone] | (Hain & Hta & b & _ & Hsel & Hab)].
    - split; [|done]. intros _ v.
      destruct (decide (v ∈ slice (nums s) l r)) as [Hv|Hv]; [auto|].
      rewrite <- occ_pos_elem in Hv.
      pose proof (occ_bounds v (slice (nums s) l r)). lia.
    - destruct (decide (b = -1)) as [->|Hb]; [done|].
      rewrite (Hab Hb) in *. split; [done|].
      intros Hnone. specialize (Hnone b). lia. }
  split.
  - intros out s' a H Ha.
    apply numOfSubarrays_Ret in H as (_ & _ & Hans).
    exact (Hiff _ _ (Hans _ _ Ha)).
  - intros Hmax.
    destruct (query_body_run order j s l r t rest Hq Hin Hmax) as [a Ha].
    exists a. split; [exact Ha|]. split.
    + exact (call_on_single_query order s j _ a Hq Ha).
    + exact (Hiff _ _ Ha).
Qed.

Lemma answer_sentinel_witness :
  exists a,
    Solution.query_body insertion_order 1
      (Store [4; 4; 4; -1; -1] [[0; 4; 3]; [0; 4; 4]])
    = Ret (a, Store [4; 4; 4; -1; -1] [[0; 4; 3]; [0; 4; 4]]) /\
    Solution.numOfSubarrays insertion_order
      (Store [4; 4; 4; -1; -1] [[0; 4; 4]])
    = Ret ([a], Store [4; 4; 4; -1; -1] [[0; 4; 4]]) /\
    (a = -1 <-> forall v, occ v (slice [4; 4; 4; -1; -1] 0 4) < 4).
Proof.
  apply (proj2 (answer_sentinel insertion_order
                  (Store [4; 4; 4; -1; -1] [[0; 4; 3]; [0; 4; 4]])
                  1%nat 0 4 4 [] enumerates_insertion_order eq_refl
                  ltac:(unfold valid_query, in_range; simpl; lia)
                  ltac:(intros [H _]; vm_compute in H; now apply H))).
  unfold INT_MAX. lia.
Defined.

(** C3 as stated fails in two ways.  When [-1] is the selected value of the
    range the answer [-1] is that value and not the sign that nothing
    reaches the threshold: for [[-1]] and the query (0,0,1) the value [-1]
    occurs once and the answer is [-1], in every order since the table has
    one entry.  And a valid query need not complete at all: in an array of
    [2^31] zeros the query (0, [INT_MAX], 1) is valid, [-1] is not selected,
    and the call has undefined behaviour, the [int] index overflowing. *)
Lemma sentinel_is_also_a_value :
  (valid_query [-1] 0 0 1 /\
   Solution.numOfSubarrays insertion_order (Store [-1] [[0; 0; 1]])
     = Ret ([-1], Store [-1] [[0; 0; 1]]) /\
   Solution.numOfSubarrays reverse_order (Store [-1] [[0; 0; 1]])
     = Ret ([-1], Store [-1] [[0; 0; 1]]) /\
   ~ (forall v, occ v (slice [-1] 0 0) < 1)) /\
  (valid_query huge_array 0 INT_MAX 1 /\
   ~ selected 1 (slice huge_array 0 INT_MAX) (-1) /\
   Solution.numOfSubarrays insertion_order
     (Store huge_array [[0; INT_MAX; 1]]) = Undefined).
Proof.
  split.
  - split; [unfold valid_query, in_range; simpl; lia|].
    split; [reflexivity|]. split; [reflexivity|].
    intros H. specialize (H (-1)). vm_compute in H. discriminate.
  - split; [|split].
    + split; [|discriminate].
      unfold in_range, huge_array. rewrite length_replicate.
      rewrite Z2Nat.id by discriminate. unfold INT_MAX.
      split; [discriminate|]. split; [discriminate | reflexivity].
    + apply value_absent_not_selected; [|discriminate].
      unfold huge_array. intros [Hin _]%elem_of_replicate. discriminate.
    + apply (undefined_when_right_is_INT_MAX insertion_order _ 0 1 []).
      * reflexivity.
      * discriminate.
Qed.

(** ** The output sequence *)

(** C4.  The output has one element per query, and [out[j]] is the answer
    to [queries[j]]: it is the result of the scan of the table that tallies
    the range [queries[j]] names, with the threshold [queries[j]] gives, and
    it is what the call returns for [queries[j]] asked alone.  Without
    queries the output is empty. *)
Theorem output_follows_queries order s :
  (queries s = [] -> Solution.numOfSubarrays order s = Ret ([], s)) /\
  (forall out s',
     Solution.numOfSubarrays order s = Ret (out, s') ->
     length out = length (queries s) /\
     forall j query, queries s !! j = Some query ->
       exists l r t rest a T,
         query = l :: r :: t :: rest /\
         out !! j = Some a /\
         tallies T (slice (nums s) l r) /\
         a = Solution.scan t (order T) /\
         Solution.numOfSubarrays order (Store (nums s) [query])
         = Ret ([a], Store (nums s) [query])).
Proof.
  split.
  - intros Hq. unfold Solution.numOfSubarrays, bind, queries_size.
    now rewrite Hq.
  - intros out s' H.
    apply numOfSubarrays_Ret in H as (_ & Hlen & Hans). split; [done|].
    intros j query Hq.
    destruct (lookup_lt_is_Some_2 out j) as [a Ha].
    { rewrite Hlen. now apply lookup_lt_Some in Hq. }
    pose proof (Hans _ _ Ha) as Hb.
    destruct (query_body_Ret_components _ _ _ _ _ _ Hb Hq)
      as (l & r & t & rest & ->).
    destruct (query_body_Ret _ _ _ _ _ _ _ _ _ Hb Hq)
      as (_ & T & _ & HT & Hscan).
    exists l, r, t, rest, a, T. repeat split; try done.
    + apply HT.
    + apply HT.
    + apply HT.
    + exact (call_on_single_query order s j _ a Hq Hb).
Qed.

Lemma output_follows_queries_witness :
  length [4; -1; 1] = length [[0; 4; 3]; [0; 4; 4]; [3; 4; 2]] /\
  exists l r t rest a T,
    [0; 4; 4] = l :: r :: t :: rest /\
    [4; -1; 1] !! 1%nat = Some a /\
    tallies T (slice [4; 4; 4; 1; 1] l r) /\
    a = Solution.scan t (insertion_order T) /\
    Solution.numOfSubarrays insertion_order (Store [4; 4; 4; 1; 1] [[0; 4; 4]])
    = Ret ([a], Store [4; 4; 4; 1; 1] [[0; 4; 4]]).
Proof.
  destruct (proj2 (output_follows_queries insertion_order
                     (Store [4; 4; 4; 1; 1]
                        [[0; 4; 3]; [0; 4; 4]; [3; 4; 2]]))
              [4; -1; 1]
              (Store [4; 4; 4; 1; 1] [[0; 4; 3]; [0; 4; 4]; [3; 4; 2]])
              eq_refl) as [Hlen Hans].
  split; [exact Hlen|]. exact (Hans 1%nat [0; 4; 4] eq_refl).
Defined.

(** ** The two classes *)

Lemma optimized_scan_step t st e :
  SolutionOptimized.scan_step t st e = Solution.scan_step t st e.
Proof. now destruct st, e. Qed.

Lemma optimized_scan t es : SolutionOptimized.scan t es = Solution.scan t es.
Proof.
  unfold SolutionOptimized.scan, Solution.scan. generalize (-1, 0).
  induction es as [|e es IH]; intros st; simpl; [done|].
  now rewrite optimized_scan_step, IH.
Qed.

Lemma optimized_count_loop fuel right i freq s :
  SolutionOptimized.count_loop fuel right i freq s =
  Solution.count_loop fuel right i freq s.
Proof.
  revert i freq s. induction fuel as [|fuel IH]; intros i freq s; simpl.
  - reflexivity.
  - destruct (i <=? right); [|reflexivity]. unfold bind.
    destruct (nums_at i s) as [[x s1]| |]; [|reflexivity..].
    destruct (incr x freq s1) as [[freq' s2]| |]; [|reflexivity..].
    destruct (int_incr i s2) as [[i' s3]| |]; [|reflexivity..]. apply IH.
Qed.

Lemma optimized_query_body order j s :
  SolutionOptimized.query_body order j s = Solution.query_body order j s.
Proof.
  unfold SolutionOptimized.query_body, Solution.query_body, bind.
  destruct (query_at j 0 s) as [[l s1]| |]; [|reflexivity..].
  destruct (query_at j 1 s1) as [[r s2]| |]; [|reflexivity..].
  destruct (query_at j 2 s2) as [[t s3]| |]; [|reflexivity..].
  rewrite optimized_count_loop.
  destruct (Solution.count_loop _ r l [] s3) as [[T s4]| |]; [|reflexivity..].
  unfold ret. now rewrite optimized_scan.
Qed.

Lemma optimized_query_loop order n j result s :
  SolutionOptimized.query_loop order n j result s =
  Solution.query_loop order n j result s.
Proof.
  revert j result s. induction n as [|n IH]; intros j result s; simpl.
  - reflexivity.
  - unfold bind. rewrite optimized_query_body.
    destruct (Solution.query_body order j s) as [[a s1]| |];
      [apply IH | reflexivity..].
Qed.

(** C5.  [Solution] and [SolutionOptimized] return the same output, and
    behave alike where they return none, on every array and every query
    sequence. *)
Theorem optimized_same_output order s :
  SolutionOptimized.numOfSubarrays order s = Solution.numOfSubarrays order s.
Proof.
  unfold SolutionOptimized.numOfSubarrays, Solution.numOfSubarrays, bind.
  destruct (queries_size s) as [[n s1]| |]; [|reflexivity..].
  apply optimized_query_loop.
Qed.

(** ** Ranges of one element *)

(** C6, as the code has it.  For a query with [left == right] at an index of
    the array, a scan that completes leaves the one entry
    ([array[left]], 1), and an answer the call returns is [array[left]] if
    [threshold <= 1] and [-1] otherwise: [array[left]] for threshold 1, [-1]
    for threshold 2.  When [left < INT_MAX] the query does complete: the
    table is that entry, the body of the loop returns that answer, and the
    call on the query alone returns the one-element sequence holding it. *)
Theorem single_element_answer order s j l t rest x :
  enumerates order ->
  queries s !! j = Some (l :: l :: t :: rest) ->
  0 <= l ->
  nums s !! Z.to_nat l = Some x ->
  (forall T s1,
     Solution.count_loop (S (Z.to_nat (l - l + 1))) l l [] s = Ret (T, s1) ->
     T = [(x, 1)]) /\
  (forall out s' a,
     Solution.numOfSubarrays order s = Ret (out, s') ->
     out !! j = Some a ->
     a = (if t <=? 1 then x else -1) /\
     (t = 1 -> a = x) /\ (t = 2 -> a = -1)) /\
  (l < INT_MAX ->
   Solution.count_loop (S (Z.to_nat (l - l + 1))) l l [] s
   = Ret ([(x, 1)], s) /\
   Solution.query_body order j s = Ret (if t <=? 1 then x else -1, s) /\
   Solution.numOfSubarrays order (Store (nums s) [l :: l :: t :: rest])
   = Ret ([if t <=? 1 then x else -1],
          Store (nums s) [l :: l :: t :: rest])).
Proof.
  intros Hen Hq Hl Hx.
  assert (Hbody : forall a s1,
    Solution.query_body order j s = Ret (a, s1) ->
    a = if t <=? 1 then x else -1).
  { intros a s1 Ha.
    destruct (query_body_Ret _ _ _ _ _ _ _ _ _ Ha Hq)
      as (_ & T & HT & _ & ->).
    rewrite (count_loop_single _ _ _ _ _ Hl Hx HT). now apply scan_single. }
  split; [|split].
  - intros T s1 HT. exact (count_loop_single _ _ _ _ _ Hl Hx HT).
  - intros out s' a H Ha.
    apply numOfSubarrays_Ret in H as (_ & _ & Hans).
    rewrite (Hbody _ _ (Hans _ _ Ha)).
    split; [done|]. split; intros ->; reflexivity.
  - intros Hmax.
    assert (Hin : in_range (nums s) l l).
    { unfold in_range. apply lookup_lt_Some in Hx. lia. }
    destruct (query_body_run order j s l l t rest Hq Hin Hmax) as [a Ha].
    pose proof (Hbody _ _ Ha) as ->.
    split; [|split; [exact Ha|]].
    + destruct (query_body_Ret _ _ _ _ _ _ _ _ _ Ha Hq)
        as (_ & T & HT & _ & _).
      now rewrite <- (count_loop_single _ _ _ _ _ Hl Hx HT).
    + exact (call_on_single_query order s j _ _ Hq Ha).
Qed.

Lemma single_element_answer_witness :
  Solution.count_loop (S (Z.to_nat (0 - 0 + 1))) 0 0 []
    (Store [5] [[0; 0; 1]; [0; 0; 2]])
  = Ret ([(5, 1)], Store [5] [[0; 0; 1]; [0; 0; 2]]) /\
  Solution.query_body insertion_order 1 (Store [5] [[0; 0; 1]; [0; 0; 2]])
  = Ret (-1, Store [5] [[0; 0; 1]; [0; 0; 2]]) /\
  Solution.numOfSubarrays insertion_order (Store [5] [[0; 0; 2]])
  = Ret ([-1], Store [5] [[0; 0; 2]]).
Proof.
  apply (proj2 (proj2 (single_element_answer insertion_order
           (Store [5] [[0; 0; 1]; [0; 0; 2]]) 1%nat 0 2 [] 5
           enumerates_insertion_order eq_refl ltac:(lia) eq_refl))).
  unfold INT_MAX. lia.
Defined.

(** C6 as stated fails at the largest [int]: in an array of [2^31] zeros the
    index [INT_MAX] is valid, and for the single-element queries
    ([INT_MAX], [INT_MAX], 1) and ([INT_MAX], [INT_MAX], 2) the call returns
    no answer at all: after the one turn of the loop [i++] overflows. *)
Lemma single_element_undefined_at_INT_MAX :
  in_range huge_array INT_MAX INT_MAX /\
  huge_array !! Z.to_nat INT_MAX = Some 0 /\
  Solution.numOfSubarrays insertion_order
    (Store huge_array [[INT_MAX; INT_MAX; 1]]) = Undefined /\
  Solution.numOfSubarrays insertion_order
    (Store huge_array [[INT_MAX; INT_MAX; 2]]) = Undefined.
Proof.
  split; [|split; [|split]].
  - unfold in_range, huge_array. rewrite length_replicate.
    rewrite Z2Nat.id by discriminate. unfold INT_MAX.
    split; [discriminate|]. split; [discriminate | reflexivity].
  - unfold huge_array. apply lookup_replicate_2. unfold INT_MAX.
    apply Z2Nat.inj_lt; [discriminate | discriminate | reflexivity].
  - apply (undefined_when_right_is_INT_MAX insertion_order _ INT_MAX 1 []).
    + reflexivity.
    + discriminate.
  - apply (undefined_when_right_is_INT_MAX insertion_order _ INT_MAX 2 []).
    + reflexivity.
    + discriminate.
Qed.

(** ** Purity *)

(** C8.  A call that returns hands back the array and the query sequence as
    it received them. *)
Theorem inputs_unchanged order s out s' :
  Solution.numOfSubarrays order s = Ret (out, s') ->
  nums s' = nums s /\ queries s' = queries s.
Proof.
  intros H. now rewrite (read_only_numOfSubarrays _ _ _ _ H).
Qed.

Lemma inputs_unchanged_witness :
  nums (Store [4; 4; 4; 1; 1] [[0; 4; 3]; [0; 4; 4]]) = [4; 4; 4; 1; 1] /\
  queries (Store [4; 4; 4; 1; 1] [[0; 4; 3]; [0; 4; 4]])
    = [[0; 4; 3]; [0; 4; 4]].
Proof.
  apply (inputs_unchanged insertion_order
           (Store [4; 4; 4; 1; 1] [[0; 4; 3]; [0; 4; 4]]) [4; -1]).
  reflexivity.
Defined.


(** ** What a query reads *)

Lemma query_body_agree order j nums1 nums2 qs l r t rest :
  qs !! j = Some (l :: r :: t :: rest) ->
  (forall k, l <= k <= r -> nums1 !! Z.to_nat k = nums2 !! Z.to_nat k) ->
  value (Solution.query_body order j (Store nums1 qs)) =
  value (Solution.query_body order j (Store nums2 qs)).
Proof.
  intros Hq Hag. unfold Solution.query_body.
  rewrite !(bind_run _ _ _ _ _ (query_at_run j 0 (Store _ qs) _ l Hq eq_refl)).
  rewrite !(bind_run _ _ _ _ _ (query_at_run j 1 (Store _ qs) _ r Hq eq_refl)).
  rewrite !(bind_run _ _ _ _ _ (query_at_run j 2 (Store _ qs) _ t Hq eq_refl)).
  apply bind_value_eq;
    [apply read_only_count_loop | now apply count_loop_agree | reflexivity].
Qed.

(** C9.  The answer to a query depends on the array only through
    [array[left..right]]: on two arrays that agree at every index of
    [[left, right]] the query has the same outcome, and two calls that return
    give the same answer for it. *)
Theorem answer_depends_on_range_only order nums1 nums2 qs j l r t rest :
  qs !! j = Some (l :: r :: t :: rest) ->
  (forall k, l <= k <= r -> nums1 !! Z.to_nat k = nums2 !! Z.to_nat k) ->
  value (Solution.query_body order j (Store nums1 qs)) =
  value (Solution.query_body order j (Store nums2 qs)) /\
  forall out1 s1 out2 s2,
    Solution.numOfSubarrays order (Store nums1 qs) = Ret (out1, s1) ->
    Solution.numOfSubarrays order (Store nums2 qs) = Ret (out2, s2) ->
    out1 !! j = out2 !! j.
Proof.
  intros Hq Hag.
  pose proof (query_body_agree order j _ _ _ _ _ _ _ Hq Hag) as Hv.
  split; [exact Hv|]. intros out1 s1 out2 s2 H1 H2.
  apply numOfSubarrays_Ret in H1 as (_ & Hlen1 & Hans1).
  apply numOfSubarrays_Ret in H2 as (_ & Hlen2 & Hans2).
  simpl in Hlen1, Hlen2.
  destruct (lookup_lt_is_Some_2 out1 j) as [a1 Ha1].
  { rewrite Hlen1. apply lookup_lt_Some in Hq. exact Hq. }
  destruct (lookup_lt_is_Some_2 out2 j) as [a2 Ha2].
  { rewrite Hlen2. apply lookup_lt_Some in Hq. exact Hq. }
  rewrite Ha1, Ha2. rewrite (Hans1 _ _ Ha1), (Hans2 _ _ Ha2) in Hv.
  simpl in Hv. now injection Hv as ->.
Qed.

Lemma answer_depends_on_range_only_witness :
  value (Solution.query_body insertion_order 0
           (Store [9; 1; 1; 2; 7] [[1; 3; 2]])) =
  value (Solution.query_body insertion_order 0
           (Store [0; 1; 1; 2] [[1; 3; 2]])).
Proof.
  apply (proj1 (answer_depends_on_range_only insertion_order
                  [9; 1; 1; 2; 7] [0; 1; 1; 2] [[1; 3; 2]] 0%nat 1 3 2 []
                  eq_refl
                  ltac:(intros k Hk;
                        assert (k = 1 \/ k = 2 \/ k = 3) as [->|[->| ->]]
                          by lia; reflexivity))).
Defined.

(** ** Termination *)

(** C10, as the code has it.  The call never exhausts the budget of its
    loops, on any input; and it returns, with the store it received, on every
    input whose queries each have their three components and satisfy
    [0 <= left <= right < length(array)] and [right < INT_MAX]. *)
Theorem call_returns order s :
  Solution.numOfSubarrays order s <> Diverge /\
  ((forall query, query ∈ queries s ->
      exists l r t rest,
        query = l :: r :: t :: rest /\
        in_range (nums s) l r /\ r < INT_MAX) ->
   exists out, Solution.numOfSubarrays order s = Ret (out, s)).
Proof.
  split; [apply numOfSubarrays_not_Diverge|].
  intros Hall. apply numOfSubarrays_run. intros j Hj.
  destruct (lookup_lt_is_Some_2 (queries s) j Hj) as [query Hq].
  destruct (Hall query) as (l & r & t & rest & -> & Hin & Hmax).
  { apply list_elem_of_lookup. now exists j. }
  now apply (query_body_run order j s l r t rest).
Qed.

Lemma call_returns_witness :
  exists out,
    Solution.numOfSubarrays reverse_order
      (Store [4; 4; 4; 1; 1] [[0; 4; 3]; [0; 4; 4]])
    = Ret (out, Store [4; 4; 4; 1; 1] [[0; 4; 3]; [0; 4; 4]]).
Proof.
  apply (proj2 (call_returns reverse_order
                  (Store [4; 4; 4; 1; 1] [[0; 4; 3]; [0; 4; 4]]))).
  intros query Hq. simpl in Hq.
  apply elem_of_cons in Hq as [->|Hq].
  - exists 0, 4, 3, []. unfold in_range, INT_MAX. simpl. repeat split; lia.
  - apply elem_of_cons in Hq as [->|Hq].
    + exists 0, 4, 4, []. unfold in_range, INT_MAX. simpl. repeat split; lia.
    + now apply elem_of_nil in Hq.
Defined.

(** C10 as stated fails at the largest [int]: in an array of [2^31]
    elements the query (0, [INT_MAX], 1) satisfies
    [0 <= left <= right < length(array)], and the loop
    [for (int i = left; i <= right; i++)] cannot leave through its test,
    since no [int] exceeds [right]: [i++] overflows at [i == INT_MAX], which
    is undefined behaviour. *)
Lemma call_undefined_at_INT_MAX :
  in_range huge_array 0 INT_MAX /\
  Solution.numOfSubarrays insertion_order
    (Store huge_array [[0; INT_MAX; 1]]) = Undefined.
Proof.
  split.
  - unfold in_range, huge_array. rewrite length_replicate.
    rewrite Z2Nat.id by discriminate. unfold INT_MAX.
    split; [discriminate|]. split; [discriminate | reflexivity].
  - apply (undefined_when_right_is_INT_MAX insertion_order _ 0 1 []).
    + reflexivity.
    + discriminate.
Qed.

(** * Further properties of the code *)

(** X1.  Whatever the array holds, [-1] included, and whatever the order of
    enumeration, an answer other than [-1] is an element of
    [array[left..right]] that occurs there at least [threshold] times. *)
Theorem answer_occurs_in_range order s out s' j l r t rest a :
  enumerates order ->
  Solution.numOfSubarrays order s = Ret (out, s') ->
  queries s !! j = Some (l :: r :: t :: rest) ->
  out !! j = Some a ->
  a <> -1 ->
  a ∈ slice (nums s) l r /\ t <= occ a (slice (nums s) l r).
Proof.
  intros Hen H Hq Ha Hne.
  destruct (answer_cases _ _ _ _ _ _ _ _ _ _ Hen H Hq Ha)
    as [[-> _] | (Hin & Ht & _)]; [done | now split].
Qed.

Lemma answer_occurs_in_range_witness :
  5 ∈ slice [5; -1; -1] 0 2 /\ 1 <= occ 5 (slice [5; -1; -1] 0 2).
Proof.
  apply (answer_occurs_in_range reverse_order (Store [5; -1; -1] [[0; 2; 1]])
           [5] (Store [5; -1; -1] [[0; 2; 1]]) 0%nat 0 2 1 [] 5).
  - apply enumerates_reverse_order.
  - reflexivity.
  - reflexivity.
  - reflexivity.
  - lia.
Defined.

(** X2.  A threshold larger than the number of elements of the range gives
    [-1], whatever the array holds. *)
Theorem threshold_above_length order s out s' j l r t rest a :
  enumerates order ->
  Solution.numOfSubarrays order s = Ret (out, s') ->
  queries s !! j = Some (l :: r :: t :: rest) ->
  r - l + 1 < t ->
  out !! j = Some a ->
  a = -1.
Proof.
  intros Hen H Hq Ht Ha.
  destruct (answer_cases _ _ _ _ _ _ _ _ _ _ Hen H Hq Ha)
    as [[-> _] | (Hin & Hocc & _)]; [done|].
  apply occ_pos_elem in Hin.
  pose proof (occ_bounds a (slice (nums s) l r)).
  pose proof (length_slice_le (nums s) l r). lia.
Qed.

Lemma threshold_above_length_witness : -1 = -1.
Proof.
  apply (threshold_above_length insertion_order
           (Store [7; 7; 7] [[0; 2; 3]; [0; 2; 4]]) [7; -1]
           (Store [7; 7; 7] [[0; 2; 3]; [0; 2; 4]]) 1%nat 0 2 4 [] (-1)).
  - apply enumerates_insertion_order.
  - reflexivity.
  - reflexivity.
  - lia.
  - reflexivity.
Defined.

(** The body of the loop on a query with [right < left]: the range scan
    makes no turn. *)
Lemma query_body_empty_range order j s l r t rest :
  enumerates order ->
  queries s !! j = Some (l :: r :: t :: rest) ->
  r < l ->
  Solution.query_body order j s = Ret (-1, s).
Proof.
  intros Hen Hq Hlt. unfold Solution.query_body.
  rewrite (bind_run _ _ _ _ _ (query_at_run j 0 s _ l Hq eq_refl)).
  rewrite (bind_run _ _ _ _ _ (query_at_run j 1 s _ r Hq eq_refl)).
  rewrite (bind_run _ _ _ _ _ (query_at_run j 2 s _ t Hq eq_refl)).
  cbn [Solution.count_loop]. destruct (Z.leb_spec l r); [lia|].
  unfold bind, ret.
  pose proof (Hen []) as Hp. apply Permutation_nil_r in Hp. now rewrite Hp.
Qed.

(** X3.  A query with [right < left] reads no element of the array: its
    answer is [-1] for every threshold and every array, the empty one and
    indices outside it included. *)
Theorem empty_range_answer order s j l r t rest :
  enumerates order ->
  queries s !! j = Some (l :: r :: t :: rest) ->
  r < l ->
  Solution.query_body order j s = Ret (-1, s) /\
  forall out s',
    Solution.numOfSubarrays order s = Ret (out, s') -> out !! j = Some (-1).
Proof.
  intros Hen Hq Hlt.
  pose proof (query_body_empty_range _ _ _ _ _ _ _ Hen Hq Hlt) as Hb.
  split; [exact Hb|]. intros out s' H.
  apply numOfSubarrays_Ret in H as (_ & Hlen & Hans).
  destruct (lookup_lt_is_Some_2 out j) as [a Ha].
  { rewrite Hlen. now apply lookup_lt_Some in Hq. }
  rewrite Ha. specialize (Hans _ _ Ha). rewrite Hb in Hans.
  now injection Hans as <-.
Qed.

Lemma empty_range_answer_witness :
  Solution.query_body reverse_order 0 (Store [] [[7; -3; 0]])
  = Ret (-1, Store [] [[7; -3; 0]]).
Proof.
  apply (proj1 (empty_range_answer reverse_order (Store [] [[7; -3; 0]])
                  0%nat 7 (-3) 0 [] enumerates_reverse_order eq_refl
                  ltac:(lia))).
Defined.

(** X4.  When all the elements of [array[left..right]] are one value [x],
    the answer is [x] if the range has at least [threshold] elements and
    [-1] otherwise; this also when [x] is [-1]. *)
Theorem constant_range_answer order s out s' j l r t rest x a :
  enumerates order ->
  Solution.numOfSubarrays order s = Ret (out, s') ->
  queries s !! j = Some (l :: r :: t :: rest) ->
  in_range (nums s) l r ->
  (forall k, l <= k <= r -> nums s !! Z.to_nat k = Some x) ->
  out !! j = Some a ->
  a = if t <=? r - l + 1 then x else -1.
Proof.
  intros Hen H Hq Hin Hall Ha.
  pose proof (slice_constant _ _ _ _ (proj1 Hin) Hall) as Hc.
  pose proof (occ_constant _ _ Hc) as Hocc.
  rewrite (length_slice _ _ _ Hin) in Hocc.
  assert (Hx : x ∈ slice (nums s) l r).
  { apply occ_pos_elem. destruct Hin as (? & ? & ?). lia. }
  destruct (answer_cases _ _ _ _ _ _ _ _ _ _ Hen H Hq Ha)
    as [[-> Hnone] | (Hain & Ht & _)].
  - specialize (Hnone x Hx). destruct (Z.leb_spec t (r - l + 1)); [lia|done].
  - rewrite Forall_forall in Hc. rewrite (Hc _ Hain) in *.
    destruct (Z.leb_spec t (r - l + 1)); [done | lia].
Qed.

Lemma constant_range_answer_witness :
  -1 = if 2 <=? 2 - 0 + 1 then -1 else -1.
Proof.
  apply (constant_range_answer insertion_order
           (Store [-1; -1; -1] [[0; 2; 2]]) [-1]
           (Store [-1; -1; -1] [[0; 2; 2]]) 0%nat 0 2 2 [] (-1) (-1)).
  - apply enumerates_insertion_order.
  - reflexivity.
  - reflexivity.
  - unfold in_range. simpl. lia.
  - intros k Hk. assert (k = 0 \/ k = 1 \/ k = 2) as [->|[->| ->]] by lia;
      reflexivity.
  - reflexivity.
Defined.

(** ** Where the call has defined behaviour *)

(** A range scan that completes after at least one turn stayed inside the
    array and below the largest [int]. *)
Lemma count_loop_Ret_bounds fuel right i freq s T s' :
  Solution.count_loop fuel right i freq s = Ret (T, s') ->
  i <= right -> right <= INT_MAX ->
  0 <= i /\ right < Z.of_nat (length (nums s)) /\ right < INT_MAX.
Proof.
  revert i freq s. induction fuel as [|fuel IH]; intros i freq s H Hle Hmax;
    simpl in H; [discriminate|].
  destruct (Z.leb_spec i right) as [_|Hgt]; [|lia].
  apply bind_Ret in H as (x & s1 & Hx & H).
  apply nums_at_Ret in Hx as (-> & Hi & Hx).
  apply lookup_lt_Some in Hx.
  apply bind_Ret in H as (freq' & s2 & Hf & H).
  apply read_only_incr in Hf as ->.
  apply bind_Ret in H as (i' & s3 & Hi' & H).
  apply int_incr_Ret in Hi' as (-> & -> & Hne).
  destruct (Z.le_gt_cases (i + 1) right) as [Hle'|Hgt'].
  - destruct (IH _ _ _ H Hle' Hmax) as (_ & Hr & Hm). lia.
  - lia.
Qed.

Lemma query_body_defined order j s a s' query :
  Solution.query_body order j s = Ret (a, s') ->
  queries s !! j = Some query ->
  Forall is_int query ->
  query_defined (nums s) query.
Proof.
  intros H Hq Hint. unfold Solution.query_body in H.
  apply bind_Ret in H as (l & s1 & Hl & H).
  apply query_at_Ret in Hl as (-> & q0 & Hq0 & Hl).
  apply bind_Ret in H as (r & s1 & Hr & H).
  apply query_at_Ret in Hr as (-> & q1 & Hq1 & Hr).
  apply bind_Ret in H as (t & s1 & Ht & H).
  apply query_at_Ret in Ht as (-> & q2 & Hq2 & Ht).
  rewrite Hq in Hq0, Hq1, Hq2.
  injection Hq0 as <-. injection Hq1 as <-. injection Hq2 as <-.
  destruct query as [|l0 [|r0 [|t0 rest]]]; try discriminate.
  injection Hl as ->. injection Hr as ->. injection Ht as ->.
  exists l, r, t, rest. split; [reflexivity|].
  apply bind_Ret in H as (T & s1 & HT & _).
  destruct (Z.lt_ge_cases r l) as [Hlt|Hge]; [now left | right].
  assert (Hr : r <= INT_MAX).
  { inversion Hint as [|? ? _ Hint']. inversion Hint' as [|? ? [_ Hr] _].
    exact Hr. }
  destruct (count_loop_Ret_bounds _ _ _ _ _ _ _ HT Hge Hr) as (Hl & Hlen & Hm).
  split; [|exact Hm]. unfold in_range. lia.
Qed.

Lemma query_defined_run order j s query :
  enumerates order ->
  queries s !! j = Some query ->
  query_defined (nums s) query ->
  exists a, Solution.query_body order j s = Ret (a, s).
Proof.
  intros Hen Hq (l & r & t & rest & -> & [Hlt | [Hin Hm]]).
  - exists (-1). now apply (query_body_empty_range order j s l r t rest).
  - now apply (query_body_run order j s l r t rest).
Qed.

(** X5.  On queries made of [int]s the call returns exactly when every query
    has its three components and a range that is empty or lies inside the
    array with [right < INT_MAX]; if one query is not so, the whole call has
    undefined behaviour: there is no check of the arguments and no partial
    output. *)
Theorem call_defined_exactly order s :
  enumerates order ->
  (forall query, query ∈ queries s -> Forall is_int query) ->
  ((forall query, query ∈ queries s -> query_defined (nums s) query) ->
   exists out, Solution.numOfSubarrays order s = Ret (out, s)) /\
  ((exists query, query ∈ queries s /\ ~ query_defined (nums s) query) ->
   Solution.numOfSubarrays order s = Undefined).
Proof.
  intros Hen Hint. split.
  - intros Hall. apply numOfSubarrays_run. intros j Hj.
    destruct (lookup_lt_is_Some_2 (queries s) j Hj) as [query Hq].
    apply (query_defined_run order j s query Hen Hq).
    apply Hall. apply list_elem_of_lookup. now exists j.
  - intros (query & Hin & Hbad).
    destruct (Solution.numOfSubarrays order s) as [[out s']| |] eqn:H.
    + exfalso. apply Hbad.
      apply numOfSubarrays_Ret in H as (_ & Hlen & Hans).
      apply list_elem_of_lookup in Hin as [j Hq].
      destruct (lookup_lt_is_Some_2 out j) as [a Ha].
      { rewrite Hlen. now apply lookup_lt_Some in Hq. }
      apply (query_body_defined order j s a s query (Hans _ _ Ha) Hq).
      apply Hint. apply list_elem_of_lookup. now exists j.
    + reflexivity.
    + exfalso. exact (numOfSubarrays_not_Diverge _ _ H).
Qed.

Lemma call_defined_exactly_witness :
  Solution.numOfSubarrays insertion_order (Store [1; 2] [[0; 1; 1]; [0; 2; 1]])
  = Undefined.
Proof.
  apply (proj2 (call_defined_exactly insertion_order
                  (Store [1; 2] [[0; 1; 1]; [0; 2; 1]])
                  enumerates_insertion_order
                  ltac:(intros query Hq; simpl in Hq;
                        apply elem_of_cons in Hq as [->|Hq];
                        [|apply elem_of_cons in Hq as [->|Hq];
                          [|now apply elem_of_nil in Hq]];
                        repeat constructor; unfold INT_MAX; lia))).
  exists [0; 2; 1]. split.
  - simpl. apply elem_of_cons. right. apply elem_of_cons. now left.
  - intros (l & r & t & rest & [= <- <- <- <-] & [Hlt | [(_ & _ & Hr) _]]).
    + lia.
    + simpl in Hr. lia.
Defined.

(** ** The order of enumeration *)

Lemma scan_determined t es1 es2 :
  es1 ≡ₚ es2 ->
  (forall c, (-1, c) ∉ es1) ->
  Solution.scan t es1 = Solution.scan t es2.
Proof.
  intros Hp Hno. unfold Solution.scan.
  pose proof (scan_fold_inv t es1) as H1.
  pose proof (scan_fold_inv t es2) as H2. simpl in H1, H2.
  destruct (fold_left (Solution.scan_step t) es1 (-1, 0)) as [a1 m1].
  destruct (fold_left (Solution.scan_step t) es2 (-1, 0)) as [a2 m2].
  simpl in *.
  assert (Hno1 : forall c, (-1, c) ∈ es1 -> c < t).
  { intros c Hc. now apply Hno in Hc. }
  assert (Hno2 : forall c, (-1, c) ∈ es2 -> c < t).
  { intros c Hc. rewrite <- Hp in Hc. now apply Hno in Hc. }
  destruct H1 as [[[= -> ->] Hall1] | (Hin1 & Hm1 & Hb1)];
    destruct H2 as [[[= -> ->] Hall2] | (Hin2 & Hm2 & Hb2)].
  - reflexivity.
  - exfalso. rewrite <- Hp in Hin2. rewrite Forall_forall in Hall1.
    specialize (Hall1 _ Hin2). simpl in Hall1. lia.
  - exfalso. rewrite Hp in Hin1. rewrite Forall_forall in Hall2.
    specialize (Hall2 _ Hin1). simpl in Hall2. lia.
  - specialize (Hb1 Hno1). specialize (Hb2 Hno2).
    rewrite Forall_forall in Hb1, Hb2.
    rewrite <- Hp in Hin2. rewrite Hp in Hin1.
    specialize (Hb1 _ Hin2 Hm2). specialize (Hb2 _ Hin1 Hm1).
    simpl in Hb1, Hb2. lia.
Qed.

Lemma query_body_any_order order1 order2 j s :
  enumerates order1 -> enumerates order2 ->
  -1 ∉ nums s ->
  Solution.query_body order1 j s = Solution.query_body order2 j s.
Proof.
  intros He1 He2 Hno. unfold Solution.query_body, bind.
  destruct (query_at j 0 s) as [[l s1]| |] eqn:E0; [|reflexivity..].
  pose proof (read_only_query_at _ _ _ _ _ E0) as ->.
  destruct (query_at j 1 s) as [[r s2]| |] eqn:E1; [|reflexivity..].
  pose proof (read_only_query_at _ _ _ _ _ E1) as ->.
  destruct (query_at j 2 s) as [[t s3]| |] eqn:E2; [|reflexivity..].
  pose proof (read_only_query_at _ _ _ _ _ E2) as ->.
  destruct (Solution.count_loop _ r l [] s) as [[T s4]| |] eqn:HT;
    [|reflexivity..].
  destruct (count_loop_Ret _ _ _ _ [] _ _ _ HT tallies_nil) as [-> Htal].
  simpl in Htal. unfold ret. do 2 f_equal.
  apply scan_determined.
  - now rewrite (He1 T), (He2 T).
  - intros c Hc. rewrite (He1 T) in Hc.
    apply (tallies_entry _ _ _ _ Htal) in Hc as [-> Hpos].
    apply occ_pos_elem in Hpos. apply slice_subseteq in Hpos.
    now apply Hno.
Qed.

Lemma query_loop_any_order order1 order2 n j result s :
  enumerates order1 -> enumerates order2 ->
  -1 ∉ nums s ->
  Solution.query_loop order1 n j result s =
  Solution.query_loop order2 n j result s.
Proof.
  intros He1 He2 Hno. revert j result.
  induction n as [|n IH]; intros j result; simpl; [reflexivity|].
  unfold bind. rewrite (query_body_any_order order1 order2 j s He1 He2 Hno).
  destruct (Solution.query_body order2 j s) as [[a s1]| |] eqn:Ha;
    [|reflexivity..].
  pose proof (read_only_query_body _ _ _ _ _ Ha) as ->. apply IH.
Qed.

(** X6.  When [-1] is not an element of the array, the outcome of the call
    is the same in every order in which the tables may be enumerated: the
    output does not depend on the hash table's layout. *)
Theorem output_independent_of_order order1 order2 s :
  enumerates order1 -> enumerates order2 ->
  -1 ∉ nums s ->
  Solution.numOfSubarrays order1 s = Solution.numOfSubarrays order2 s.
Proof.
  intros He1 He2 Hno. unfold Solution.numOfSubarrays, bind, queries_size.
  now apply query_loop_any_order.
Qed.

Lemma output_independent_of_order_witness :
  Solution.numOfSubarrays insertion_order
    (Store [3; 1; 3; 1; 2] [[0; 4; 2]; [1; 3; 1]]) =
  Solution.numOfSubarrays reverse_order
    (Store [3; 1; 3; 1; 2] [[0; 4; 2]; [1; 3; 1]]).
Proof.
  apply (output_independent_of_order insertion_order reverse_order
           (Store [3; 1; 3; 1; 2] [[0; 4; 2]; [1; 3; 1]])
           enumerates_insertion_order enumerates_reverse_order).
  simpl. intros H.
  repeat (apply elem_of_cons in H as [H|H]; [discriminate|]).
  now apply elem_of_nil in H.
Defined.

(** ** Thresholds *)

(** X7.  Two queries of one call on the same range, with thresholds
    [t1 <= t2] and [-1] below [t1] in the range: an answer other than [-1]
    at the higher threshold is also the answer at the lower one. *)
Theorem lower_threshold_same_answer
    order s out s' j1 j2 l r t1 t2 rest1 rest2 a :
  enumerates order ->
  Solution.numOfSubarrays order s = Ret (out, s') ->
  queries s !! j1 = Some (l :: r :: t1 :: rest1) ->
  queries s !! j2 = Some (l :: r :: t2 :: rest2) ->
  t1 <= t2 ->
  occ (-1) (slice (nums s) l r) < t1 ->
  out !! j2 = Some a ->
  a <> -1 ->
  out !! j1 = Some a.
Proof.
  intros Hen H Hq1 Hq2 Hle Hm1 Ha2 Hne.
  destruct (lookup_lt_is_Some_2 out j1) as [a1 Ha1].
  { apply numOfSubarrays_Ret in H as (_ & Hlen & _). rewrite Hlen.
    now apply lookup_lt_Some in Hq1. }
  rewrite Ha1. f_equal.
  destruct (answer_cases _ _ _ _ _ _ _ _ _ _ Hen H Hq2 Ha2)
    as [[-> _] | (Hin2 & Ht2 & Hb2)]; [done|].
  destruct (Hb2 ltac:(lia)) as [_ Hbest2].
  destruct (answer_cases _ _ _ _ _ _ _ _ _ _ Hen H Hq1 Ha1)
    as [[-> Hnone] | (Hin1 & Ht1 & Hb1)].
  - specialize (Hnone a Hin2). lia.
  - destruct (Hb1 Hm1) as [_ Hbest1].
    specialize (Hbest1 a Hin2 ltac:(lia)).
    destruct (Z.lt_ge_cases (occ a1 (slice (nums s) l r)) t2) as [Hlt|Hge].
    + lia.
    + specialize (Hbest2 a1 Hin1 Hge). lia.
Qed.

Lemma lower_threshold_same_answer_witness :
  [4; 4] !! 0%nat = Some 4.
Proof.
  apply (lower_threshold_same_answer insertion_order
           (Store [4; 4; 4; 1; 1] [[0; 4; 2]; [0; 4; 3]]) [4; 4]
           (Store [4; 4; 4; 1; 1] [[0; 4; 2]; [0; 4; 3]])
           0%nat 1%nat 0 4 2 3 [] [] 4).
  - apply enumerates_insertion_order.
  - reflexivity.
  - reflexivity.
  - reflexivity.
  - lia.
  - reflexivity.
  - reflexivity.
  - lia.
Defined.

(** X13.  With threshold 1, on a range inside the array that does not
    contain [-1], the answer is the mode of the range: an element of the
    range that no value exceeds in count, the smallest of those with its
    count. *)
Theorem threshold_one_gives_mode order s out s' j l r rest a :
  enumerates order ->
  Solution.numOfSubarrays order s = Ret (out, s') ->
  queries s !! j = Some (l :: r :: 1 :: rest) ->
  in_range (nums s) l r ->
  -1 ∉ slice (nums s) l r ->
  out !! j = Some a ->
  a ∈ slice (nums s) l r /\
  forall v,
    occ v (slice (nums s) l r) <= occ a (slice (nums s) l r) /\
    (occ v (slice (nums s) l r) = occ a (slice (nums s) l r) -> a <= v).
Proof.
  intros Hen H Hq Hin Hno Ha.
  assert (Hm1 : occ (-1) (slice (nums s) l r) < 1).
  { rewrite <- occ_pos_elem in Hno. lia. }
  destruct (answer_cases _ _ _ _ _ _ _ _ _ _ Hen H Hq Ha)
    as [[-> Hnone] | (Hain & Ht & Hbest)].
  - exfalso. pose proof (length_slice _ _ _ Hin) as Hlen.
    destruct (slice (nums s) l r) as [|v0 range] eqn:Hs.
    + simpl in Hlen. destruct Hin as (? & ? & ?). lia.
    + assert (Hv0 : v0 ∈ v0 :: range) by (apply elem_of_cons; now left).
      specialize (Hnone v0 Hv0). apply occ_pos_elem in Hv0. lia.
  - split; [done|]. destruct (Hbest Hm1) as [_ Hb]. intros v.
    pose proof (occ_bounds v (slice (nums s) l r)) as Hv.
    destruct (decide (v ∈ slice (nums s) l r)) as [Hvin|Hvout].
    + pose proof Hvin as Hpos. apply occ_pos_elem in Hpos.
      specialize (Hb v Hvin ltac:(lia)). lia.
    + rewrite <- occ_pos_elem in Hvout. lia.
Qed.

Lemma threshold_one_gives_mode_witness :
  1 ∈ slice [3; 1; 3; 1; 2] 0 4 /\
  forall v,
    occ v (slice [3; 1; 3; 1; 2] 0 4) <= occ 1 (slice [3; 1; 3; 1; 2] 0 4) /\
    (occ v (slice [3; 1; 3; 1; 2] 0 4) = occ 1 (slice [3; 1; 3; 1; 2] 0 4) ->
     1 <= v).
Proof.
  apply (threshold_one_gives_mode reverse_order
           (Store [3; 1; 3; 1; 2] [[0; 4; 1]]) [1]
           (Store [3; 1; 3; 1; 2] [[0; 4; 1]]) 0%nat 0 4 [] 1).
  - apply enumerates_reverse_order.
  - reflexivity.
  - reflexivity.
  - unfold in_range. simpl. lia.
  - intros H. change (slice (nums (Store [3; 1; 3; 1; 2] [[0; 4; 1]])) 0 4)
      with [3; 1; 3; 1; 2] in H.
    repeat (apply elem_of_cons in H as [H|H]; [discriminate|]).
    now apply elem_of_nil in H.
  - reflexivity.
Defined.

(** ** Queries are answered one by one *)

(** X8.  The answer to a query is a function of the array and of the first
    three components of that query: the other queries of the call, the
    position of the query among them and any further component of the query
    have no influence. *)
Theorem answer_of_query_alone
    order s1 s2 j1 j2 l r t rest1 rest2 :
  nums s1 = nums s2 ->
  queries s1 !! j1 = Some (l :: r :: t :: rest1) ->
  queries s2 !! j2 = Some (l :: r :: t :: rest2) ->
  value (Solution.query_body order j1 s1) =
  value (Solution.query_body order j2 s2).
Proof.
  intros Hn Hq1 Hq2.
  exact (query_body_components order s1 s2 j1 j2 l r t rest1 rest2
           Hn Hq1 Hq2).
Qed.

Lemma answer_of_query_alone_witness :
  value (Solution.query_body insertion_order 1
           (Store [1; 1; 2] [[0; 0; 1]; [0; 2; 2; 99]])) =
  value (Solution.query_body insertion_order 0
           (Store [1; 1; 2] [[0; 2; 2]])).
Proof.
  apply (answer_of_query_alone insertion_order
           (Store [1; 1; 2] [[0; 0; 1]; [0; 2; 2; 99]])
           (Store [1; 1; 2] [[0; 2; 2]]) 1%nat 0%nat 0 2 2 [99] []
           eq_refl eq_refl eq_refl).
Defined.

(** X9.  Queries are answered independently of each other: if the call
    returns [out1] on the queries [qs1] and [out2] on the queries [qs2],
    over the same array, then on [qs1 ++ qs2] it returns [out1 ++ out2]. *)
Theorem answers_of_appended_queries order array qs1 qs2 out1 out2 s1 s2 :
  Solution.numOfSubarrays order (Store array qs1) = Ret (out1, s1) ->
  Solution.numOfSubarrays order (Store array qs2) = Ret (out2, s2) ->
  Solution.numOfSubarrays order (Store array (qs1 ++ qs2))
  = Ret (out1 ++ out2, Store array (qs1 ++ qs2)).
Proof.
  intros H1 H2.
  apply numOfSubarrays_Ret in H1 as (_ & Hlen1 & Hans1).
  apply numOfSubarrays_Ret in H2 as (_ & Hlen2 & Hans2).
  simpl in Hlen1, Hlen2.
  apply numOfSubarrays_from_answers.
  - simpl. rewrite !length_app. lia.
  - intros j a Ha. apply lookup_app_Some in Ha as [Ha | [Hge Ha]].
    + rewrite (query_body_same_query order (Store array (qs1 ++ qs2))
                 (Store array qs1) j j eq_refl).
      * now rewrite (Hans1 _ _ Ha).
      * simpl. apply lookup_app_l. apply lookup_lt_Some in Ha. lia.
    + rewrite (query_body_same_query order (Store array (qs1 ++ qs2))
                 (Store array qs2) j (j - length out1) eq_refl).
      * now rewrite (Hans2 _ _ Ha).
      * simpl. rewrite lookup_app_r by lia. now rewrite Hlen1.
Qed.

Lemma answers_of_appended_queries_witness :
  Solution.numOfSubarrays insertion_order
    (Store [4; 4; 4; 1; 1] ([[0; 4; 3]] ++ [[0; 4; 4]; [3; 4; 2]]))
  = Ret ([4] ++ [-1; 1],
         Store [4; 4; 4; 1; 1] ([[0; 4; 3]] ++ [[0; 4; 4]; [3; 4; 2]])).
Proof.
  apply (answers_of_appended_queries insertion_order [4; 4; 4; 1; 1]
           [[0; 4; 3]] [[0; 4; 4]; [3; 4; 2]] [4] [-1; 1]
           (Store [4; 4; 4; 1; 1] [[0; 4; 3]])
           (Store [4; 4; 4; 1; 1] [[0; 4; 4]; [3; 4; 2]])).
  - reflexivity.
  - reflexivity.
Defined.

(** ** The frequency table *)

(** X10.  The table the range scan leaves, started from the empty table at
    [left], has one entry for each distinct value of [array[left..right]]
    and none else, each with the number of occurrences of its value in the
    range. *)
Theorem frequency_table_of_range fuel right left s T s' :
  Solution.count_loop fuel right left [] s = Ret (T, s') ->
  NoDup T.*1 /\
  (forall k c, (k, c) ∈ T <->
     c = occ k (slice (nums s) left right) /\ 0 < c) /\
  (forall k, k ∈ T.*1 <-> k ∈ slice (nums s) left right).
Proof.
  intros H.
  destruct (count_loop_Ret _ _ _ _ [] _ _ _ H tallies_nil) as [_ Htal].
  simpl in Htal. split; [apply Htal|]. split.
  - intros k c. apply (tallies_entry _ _ _ _ Htal).
  - intros k. split.
    + intros Hk. apply list_elem_of_fmap in Hk as [[k' c] [-> Hin]].
      apply (tallies_entry _ _ _ _ Htal) in Hin as [-> Hpos].
      now apply occ_pos_elem.
    + intros Hpos. apply occ_pos_elem in Hpos. apply list_elem_of_fmap.
      exists (k, occ k (slice (nums s) left right)). split; [reflexivity|].
      apply (tallies_entry _ _ _ _ Htal). split; [reflexivity | exact Hpos].
Qed.

Lemma frequency_table_of_range_witness :
  NoDup [(2, 2); (1, 1); (3, 1)].*1 /\
  (forall k c, (k, c) ∈ [(2, 2); (1, 1); (3, 1)] <->
     c = occ k (slice [9; 2; 1; 2; 3] 1 4) /\ 0 < c) /\
  (forall k, k ∈ [(2, 2); (1, 1); (3, 1)].*1 <->
     k ∈ slice [9; 2; 1; 2; 3] 1 4).
Proof.
  apply (frequency_table_of_range 5 4 1 (Store [9; 2; 1; 2; 3] [])
           [(2, 2); (1, 1); (3, 1)] (Store [9; 2; 1; 2; 3] [])).
  reflexivity.
Defined.

(** ** class SolutionOptimized *)

Lemma optimized_call_Ret order s out s' :
  SolutionOptimized.numOfSubarrays order s = Ret (out, s') ->
  Solution.numOfSubarrays order s = Ret (out, s').
Proof.
  unfold SolutionOptimized.numOfSubarrays, Solution.numOfSubarrays, bind.
  destruct (queries_size s) as [[n s1]| |]; [|discriminate..].
  now rewrite optimized_query_loop.
Qed.

(** X11.  [SolutionOptimized::numOfSubarrays] returns on every input whose
    queries have their three components and a range inside the array with
    [right < INT_MAX], and a call that returns leaves the array and the
    queries as they were. *)
Theorem optimized_returns_inputs_unchanged order s :
  ((forall query, query ∈ queries s ->
      exists l r t rest,
        query = l :: r :: t :: rest /\
        in_range (nums s) l r /\ r < INT_MAX) ->
   exists out, SolutionOptimized.numOfSubarrays order s = Ret (out, s)) /\
  (forall out s',
     SolutionOptimized.numOfSubarrays order s = Ret (out, s') -> s' = s).
Proof.
  split.
  - intros Hall.
    destruct (numOfSubarrays_run order s) as [out Hout].
    { intros j Hj.
      destruct (lookup_lt_is_Some_2 (queries s) j Hj) as [query Hq].
      destruct (Hall query) as (l & r & t & rest & -> & Hin & Hmax).
      { apply list_elem_of_lookup. now exists j. }
      now apply (query_body_run order j s l r t rest). }
    exists out. revert Hout.
    unfold SolutionOptimized.numOfSubarrays, Solution.numOfSubarrays, bind.
    destruct (queries_size s) as [[n s1]| |]; [|discriminate..].
    now rewrite optimized_query_loop.
  - intros out s' H. apply optimized_call_Ret in H.
    exact (read_only_numOfSubarrays _ _ _ _ H).
Qed.

Lemma optimized_returns_inputs_unchanged_witness :
  exists out,
    SolutionOptimized.numOfSubarrays reverse_order (Store [5] [[0; 0; 1]])
    = Ret (out, Store [5] [[0; 0; 1]]).
Proof.
  apply (proj1 (optimized_returns_inputs_unchanged reverse_order
                  (Store [5] [[0; 0; 1]]))).
  intros query Hq. simpl in Hq. apply elem_of_cons in Hq as [->|Hq].
  - exists 0, 0, 1, []. unfold in_range, INT_MAX. simpl. repeat split; lia.
  - now apply elem_of_nil in Hq.
Defined.

(** X12.  [SolutionOptimized::numOfSubarrays] selects like [Solution]: for a
    query in whose range [-1] stays below the threshold, an answer other
    than [-1] occurs at least [threshold] times in the range and no other
    value has a higher count or the same count and a smaller value; and the
    answer is [-1] exactly when no value of the range reaches the
    threshold. *)
Theorem optimized_answer order s out s' j l r t rest a :
  enumerates order ->
  SolutionOptimized.numOfSubarrays order s = Ret (out, s') ->
  queries s !! j = Some (l :: r :: t :: rest) ->
  occ (-1) (slice (nums s) l r) < t ->
  out !! j = Some a ->
  (a <> -1 -> selected t (slice (nums s) l r) a) /\
  (a = -1 <-> forall v, v ∈ slice (nums s) l r ->
                occ v (slice (nums s) l r) < t).
Proof.
  intros Hen H Hq Hm1 Ha. apply optimized_call_Ret in H.
  destruct (answer_cases _ _ _ _ _ _ _ _ _ _ Hen H Hq Ha)
    as [[-> Hnone] | (Hin & Ht & Hbest)].
  - split; [done|]. split; [intros _; exact Hnone | reflexivity].
  - destruct (Hbest Hm1) as [Hne Hb]. split.
    + intros _. split; [done|]. apply occ_pos_elem in Hin.
      intros v Hv. split.
      * intros [Hlt Htv].
        assert (Hvin : v ∈ slice (nums s) l r) by (apply occ_pos_elem; lia).
        specialize (Hb v Hvin Htv). lia.
      * intros [Heq Hlt].
        assert (Hvin : v ∈ slice (nums s) l r) by (apply occ_pos_elem; lia).
        specialize (Hb v Hvin ltac:(lia)). lia.
    + split; [done|]. intros Hnone. specialize (Hnone a Hin). lia.
Qed.

Lemma optimized_answer_witness :
  (1 <> -1 -> selected 2 (slice [1; 1; 2; 2] 0 3) 1) /\
  (1 = -1 <-> forall v, v ∈ slice [1; 1; 2; 2] 0 3 ->
                occ v (slice [1; 1; 2; 2] 0 3) < 2).
Proof.
  apply (optimized_answer reverse_order (Store [1; 1; 2; 2] [[0; 3; 2]])
           [1] (Store [1; 1; 2; 2] [[0; 3; 2]]) 0%nat 0 3 2 [] 1).
  - apply enumerates_reverse_order.
  - reflexivity.
  - reflexivity.
  - reflexivity.
  - reflexivity.
Defined.
